(** * ReFrame environments: a shallow embedding of
      [reframe/core/environments.py]

    The file follows the Python module top to bottom: the pieces of the
    Python runtime the module leans on ([for] loops, [os.path.expandvars],
    the class namespace and attribute assignment), the interface of the
    modules system it talks to through [runtime()], then the classes
    [Environment], [EnvironmentSnapshot] and [save_environment].  The
    properties of the environment protocol are proved at the end.

    Conventions.  A Python [str] is a Rocq [string] (ASCII text).  The
    process environment [os.environ] and plain [dict]s are [gmap]s, an
    [OrderedDict] is the list of its items in insertion order, a [set] is a
    [gset].  A method that mutates [self] and the process-wide state takes
    and returns both. *)

From Stdlib Require Import Ascii String.
From stdpp Require Import gmap strings list fin_maps pretty.

#[local] Set Warnings "-clear-no-such-hyp".

Local Open Scope string_scope.
Local Open Scope list_scope.

(** ** Python runtime *)

(** [for x in xs: body], where [body] updates the state [s]. *)
Fixpoint for_in {A S : Type} (xs : list A) (body : A → S → S) (s : S) : S :=
  match xs with
  | [] => s
  | x :: xs' => for_in xs' body (body x s)
  end.

(** [sep.join(items)]. *)
Fixpoint str_join (sep : string) (items : list string) : string :=
  match items with
  | [] => ""
  | x :: items' =>
      match items' with
      | [] => x
      | _ :: _ => x +:+ sep +:+ str_join sep items'
      end
  end.

(** The string ['\n']. *)
Definition newline : string := String (ascii_of_nat 10) "".

(** The exceptions raised by the code under study. *)
Inductive Exception :=
| TypeError (msg : string)
| AttributeError (msg : string)
| NotImplementedError (msg : string).

(** The result of a call that may raise. *)
Definition Result (A : Type) : Type := Exception + A.

(** [\w] on ASCII text: letters, digits and the underscore. *)
Definition is_word_char (c : ascii) : bool :=
  let n := nat_of_ascii c in
  (((48 <=? n) && (n <=? 57)) || ((65 <=? n) && (n <=? 90))
   || ((97 <=? n) && (n <=? 122)) || (n =? 95))%nat.

Definition is_hyphen (c : ascii) : bool := (nat_of_ascii c =? 45)%nat.

(** [re.fullmatch(r'(\w|-)+', s)]: a non-empty run of word characters and
    hyphens, the pattern of [typ.Str[r'(\w|-)+']]. *)
Definition fullmatch_identifier (s : string) : bool :=
  match list_ascii_of_string s with
  | [] => false
  | cs => forallb (λ c, is_word_char c || is_hyphen c) cs
  end.

(** *** [os.path.expandvars]

    [posixpath.expandvars] scans the string for [$name] and [${name}]
    (pattern [\$(\w+|\{[^}]*\})], ASCII), replaces each reference whose
    name is set in the environment by its value, leaves the others as they
    are, and never rescans a substituted value. *)

(** The longest prefix of word characters, and the rest. *)
Fixpoint span_word (s : list ascii) : list ascii * list ascii :=
  match s with
  | c :: s' =>
      if is_word_char c
      then let '(w, r) := span_word s' in (c :: w, r)
      else ([], s)
  | [] => ([], [])
  end.

(** [[^}]*\}]: the text up to the first closing brace, and what follows it. *)
Fixpoint until_brace (s : list ascii) : option (list ascii * list ascii) :=
  match s with
  | [] => None
  | c :: s' =>
      if (nat_of_ascii c =? 125)%nat then Some ([], s')
      else match until_brace s' with
           | Some (w, r) => Some (c :: w, r)
           | None => None
           end
  end.

(** A match of [(\w+|\{[^}]*\})] right after a dollar sign: the variable
    name, the matched text, and the text after the match. *)
Definition match_var (s : list ascii)
  : option (list ascii * list ascii * list ascii) :=
  match s with
  | c :: s' =>
      if (nat_of_ascii c =? 123)%nat then
        match until_brace s' with
        | Some (n, r) => Some (n, c :: n ++ [ascii_of_nat 125%nat], r)
        | None => None
        end
      else
        match span_word s with
        | ([], _) => None
        | (w, r) => Some (w, w, r)
        end
  | [] => None
  end.

(** The [while True] loop of [expandvars]; every turn consumes at least one
    character, so the length of the text is fuel enough. *)
Fixpoint expand (fuel : nat) (env : gmap string string) (s : list ascii)
  : list ascii :=
  match fuel with
  | 0 => s
  | S fuel' =>
      match s with
      | [] => []
      | c :: rest =>
          if (nat_of_ascii c =? 36)%nat then
            match match_var rest with
            | Some (name, raw, tail) =>
                match env !! string_of_list_ascii name with
                | Some value =>
                    list_ascii_of_string value ++ expand fuel' env tail
                | None => c :: raw ++ expand fuel' env tail
                end
            | None => c :: expand fuel' env rest
            end
          else c :: expand fuel' env rest
      end
  end.

Definition expandvars (env : gmap string string) (path : string) : string :=
  let s := list_ascii_of_string path in
  string_of_list_ascii (expand (length s) env s).

(** *** [collections.OrderedDict]

    An ordered dictionary is the list of its items in insertion order;
    assigning to a key that is present keeps the key's position. *)
Fixpoint odict_setitem (k v : string) (od : list (string * string))
  : list (string * string) :=
  match od with
  | [] => [(k, v)]
  | (k', v') :: od' =>
      if decide (k = k') then (k, v) :: od'
      else (k', v') :: odict_setitem k v od'
  end.

(** [collections.OrderedDict(items)]. *)
Definition OrderedDict (items : list (string * string))
  : list (string * string) :=
  for_in items (λ '(k, v) od, odict_setitem k v od) [].

(** The invariant of an ordered dictionary: every key occurs once. *)
Definition odict_wf (od : list (string * string)) : Prop := NoDup od.*1.

(** The mapping an ordered dictionary denotes once the order is forgotten
    (what [dict.__eq__] compares). *)
Definition odict_mapping (od : list (string * string)) : gmap string string :=
  list_to_map od.

(** [OrderedDict.__eq__] against another [OrderedDict]:
    [dict.__eq__(self, other) and all(map(_eq, self, other))], the same
    mapping and the same keys position by position. *)
Definition odict_eq (od1 od2 : list (string * string)) : bool :=
  bool_decide (odict_mapping od1 = odict_mapping od2)
  && forallb (λ '(k1, k2), bool_decide (k1 = k2)) (zip od1.*1 od2.*1).

(** *** Classes, descriptors and attribute assignment *)

(** The values handed to attribute assignments in this module. *)
Inductive PyValue :=
| PyStr (s : string)
| PyList (l : list string)
| PyDict (d : list (string * string))
| PyObject.

(** The types of [reframe.utility.typecheck] used by the class. *)
Inductive FieldType :=
| Str_matching (patt : string → bool)
| List_of_str
| Dict_of_str_str.

Definition isinstance_of (v : PyValue) (ty : FieldType) : bool :=
  match ty, v with
  | Str_matching patt, PyStr s => patt s
  | List_of_str, PyList _ => true
  | Dict_of_str_str, PyDict _ => true
  | _, _ => false
  end.

(** Modelled from the spec: [reframe.core.fields.TypedField], which is
    outside the sources.  [TypedField(fieldname, type)] is a data descriptor:
    assigning to the class attribute it is bound to checks the value against
    [type], raises a [TypeError] when the check fails, and otherwise stores
    the value in the instance under ['_' + fieldname].  The other two kinds
    of class attribute are Python's own: a [property] without setter, and a
    plain function. *)
Inductive ClassAttr :=
| TypedField (fieldname : string) (ty : FieldType)
| property
| function.

(** A class body is executed top to bottom; binding a name again replaces
    the earlier binding. *)
Definition class_namespace (body : list (string * ClassAttr))
  : gmap string ClassAttr :=
  for_in body (λ '(name, attr) ns, <[name := attr]> ns) ∅.

(** [obj.attr = value]: a data descriptor bound to [attr] in the class
    intercepts the assignment; without one the value goes straight to the
    instance dictionary. *)
Definition setattr_check (cls : gmap string ClassAttr) (attr : string)
    (value : PyValue) : Result unit :=
  match cls !! attr with
  | Some (TypedField fieldname ty) =>
      if isinstance_of value ty then inr ()
      else inl (TypeError ("failed to set field '" +:+ fieldname +:+ "'"))
  | Some property => inl (AttributeError "can't set attribute")
  | Some function | None => inr ()
  end.

Definition result_bind {A B : Type} (r : Result A) (k : A → Result B)
  : Result B :=
  match r with
  | inl e => inl e
  | inr a => k a
  end.

Notation "r ;;; k" := (result_bind r (λ _, k))
  (at level 100, k at level 200, right associativity).

(** ** The modules system and the ambient state *)

Module modules.

(** Modelled from the spec: the interface of [runtime().modules_system]
    ([reframe.core.modules], outside the sources), as listed in the
    capability contract of the module backend: a query for one module, a
    load that may force conflicting modules out and returns their names,
    an unload, the list of loaded modules, and the two command
    emitters.  [MS] is the state of the modules system; the operations
    act on that state alone, not on [os.environ], and always return. *)
Class ModulesSystem (MS : Type) := {
  is_module_loaded : MS → string → bool;
  load_module : MS → string → bool → list string * MS;
  unload_module : MS → string → MS;
  loaded_modules : MS → list string;
  emit_load_commands : MS → string → list string;
  emit_unload_commands : MS → string → list string;
}.

End modules.

(** A request made to the modules system. *)
Inductive Request :=
| ReqLoad (name : string) (force : bool)
| ReqUnload (name : string).

(** The ambient state shared by all environments of the process:
    [os.environ], the state of the modules system behind [runtime()], and
    the history of the load and unload requests made to it. *)
Record Ambient (MS : Type) := mkAmbient {
  environ : gmap string string;
  modules_system : MS;
  requests : list Request;
}.
Arguments mkAmbient {MS}.
Arguments environ {MS}.
Arguments modules_system {MS}.
Arguments requests {MS}.

Definition set_environ {MS} (env : gmap string string) (w : Ambient MS)
  : Ambient MS :=
  mkAmbient env (modules_system w) (requests w).

Section runtime.
Context {MS : Type} `{!modules.ModulesSystem MS}.

(** [runtime().modules_system.load_module(m, force)]. *)
Definition rt_load_module (m : string) (force : bool) (w : Ambient MS)
  : list string * Ambient MS :=
  let '(conflicted, ms) := modules.load_module (modules_system w) m force in
  (conflicted, mkAmbient (environ w) ms (requests w ++ [ReqLoad m force])).

(** [runtime().modules_system.unload_module(m)]. *)
Definition rt_unload_module (m : string) (w : Ambient MS) : Ambient MS :=
  mkAmbient (environ w) (modules.unload_module (modules_system w) m)
            (requests w ++ [ReqUnload m]).

(** The set of loaded modules of an ambient state. *)
Definition loaded_set (w : Ambient MS) : gset string :=
  list_to_set (modules.loaded_modules (modules_system w)).
End runtime.

(** ** [class Environment] *)

Module Environment.

(** An entry of [_module_ops]: ['l'] for a load, ['u'] for an unload. *)
Inductive ModuleOp := op_l | op_u.

(** The instance attributes set by [__init__]. *)
Record t := mk {
  _name : string;
  _modules : list string;
  _variables : list (string * string);
  _loaded : bool;
  _saved_variables : gmap string string;
  _conflicted : list string;
  _preloaded : gset string;
  _module_ops : list (ModuleOp * string);
}.

Definition set_loaded (b : bool) (self : t) : t :=
  mk (_name self) (_modules self) (_variables self) b
     (_saved_variables self) (_conflicted self) (_preloaded self)
     (_module_ops self).

Definition set_saved_variables (sv : gmap string string) (self : t) : t :=
  mk (_name self) (_modules self) (_variables self) (_loaded self)
     sv (_conflicted self) (_preloaded self) (_module_ops self).

Definition set_conflicted (c : list string) (self : t) : t :=
  mk (_name self) (_modules self) (_variables self) (_loaded self)
     (_saved_variables self) c (_preloaded self) (_module_ops self).

Definition set_preloaded (p : gset string) (self : t) : t :=
  mk (_name self) (_modules self) (_variables self) (_loaded self)
     (_saved_variables self) (_conflicted self) p (_module_ops self).

Definition set_module_ops (ops : list (ModuleOp * string)) (self : t) : t :=
  mk (_name self) (_modules self) (_variables self) (_loaded self)
     (_saved_variables self) (_conflicted self) (_preloaded self) ops.

(** The statements of the class body, in source order.  The three typed
    fields come first; the properties of the same names come after
    [__init__]. *)
Definition class_body : list (string * ClassAttr) :=
  [ ("name", TypedField "name" (Str_matching fullmatch_identifier));
    ("modules", TypedField "modules" List_of_str);
    ("variables", TypedField "variables" Dict_of_str_str);
    ("__init__", function);
    ("name", property);
    ("modules", property);
    ("variables", property);
    ("is_loaded", property);
    ("load", function);
    ("unload", function);
    ("emit_load_commands", function);
    ("emit_unload_commands", function);
    ("__eq__", function);
    ("details", function);
    ("__str__", function);
    ("__repr__", function) ].

Definition class_dict : gmap string ClassAttr := class_namespace class_body.

(** [Environment(name, modules, variables)]: eight attribute
    assignments on the new instance. *)
Definition __init__ (name : string) (modules : list string)
    (variables : list (string * string)) : Result t :=
  let variables' := OrderedDict variables in
  setattr_check class_dict "_name" (PyStr name) ;;;
  setattr_check class_dict "_modules" (PyList modules) ;;;
  setattr_check class_dict "_variables" (PyDict variables') ;;;
  setattr_check class_dict "_loaded" PyObject ;;;
  setattr_check class_dict "_saved_variables" PyObject ;;;
  setattr_check class_dict "_conflicted" (PyList []) ;;;
  setattr_check class_dict "_preloaded" PyObject ;;;
  setattr_check class_dict "_module_ops" PyObject ;;;
  inr (mk name modules variables' false ∅ [] ∅ []).

Section methods.
Context {MS : Type} `{!modules.ModulesSystem MS}.

(** The property [is_loaded]. *)
Definition is_loaded (self : t) (w : Ambient MS) : bool :=
  forallb (modules.is_module_loaded (modules_system w)) (_modules self)
  && forallb
       (λ '(k, v),
          bool_decide (environ w !! k = Some (expandvars (environ w) v)))
       (_variables self).

(** One turn of the loop over [self._modules] in [load]. *)
Definition load_module_step (m : string) (st : t * Ambient MS)
  : t * Ambient MS :=
  let '(self, w) := st in
  let self :=
    if modules.is_module_loaded (modules_system w) m
    then set_preloaded ({[m]} ∪ _preloaded self) self
    else self in
  let '(conflicted, w) := rt_load_module m true w in
  let self :=
    for_in conflicted
      (λ c self, set_module_ops (_module_ops self ++ [(op_u, c)]) self)
      self in
  let self := set_module_ops (_module_ops self ++ [(op_l, m)]) self in
  let self := set_conflicted (_conflicted self ++ conflicted) self in
  (self, w).

(** One turn of the loop over [self._variables.items()] in [load]. *)
Definition load_variable_step (kv : string * string)
    (st : t * Ambient MS) : t * Ambient MS :=
  let '(k, v) := kv in
  let '(self, w) := st in
  let self :=
    match environ w !! k with
    | Some old =>
        set_saved_variables (<[k := old]> (_saved_variables self)) self
    | None => self
    end in
  let w := set_environ (<[k := expandvars (environ w) v]> (environ w)) w in
  (self, w).

Definition load (self : t) (w : Ambient MS) : t * Ambient MS :=
  let st := for_in (_modules self) load_module_step (self, w) in
  let '(self, w) := for_in (_variables self) load_variable_step st in
  (set_loaded true self, w).

(** One turn of the loop over [self._variables.items()] in [unload]. *)
Definition unload_variable_step (self : t) (kv : string * string)
    (w : Ambient MS) : Ambient MS :=
  let '(k, v) := kv in
  match _saved_variables self !! k with
  | Some old => set_environ (<[k := old]> (environ w)) w
  | None =>
      match environ w !! k with
      | Some _ => set_environ (delete k (environ w)) w
      | None => w
      end
  end.

Definition unload (self : t) (w : Ambient MS) : t * Ambient MS :=
  if negb (_loaded self) then (self, w)
  else
    let w := for_in (_variables self) (unload_variable_step self) w in
    let w :=
      for_in (reverse (_modules self))
        (λ m w,
           if decide (m ∈ _preloaded self) then w
           else rt_unload_module m w)
        w in
    let w :=
      for_in (_conflicted self)
        (λ m w, (rt_load_module m false w).2)
        w in
    (set_loaded false self, w).

(** [self.load()] followed by the matching [self.unload()]. *)
Definition load_then_unload (self : t) (w : Ambient MS) : t * Ambient MS :=
  let '(self, w) := load self w in
  unload self w.

Definition emit_load_commands (self : t) (w : Ambient MS) : list string :=
  let ms := modules_system w in
  let emit_fn op :=
    match op with
    | op_l => modules.emit_load_commands ms
    | op_u => modules.emit_unload_commands ms
    end in
  let module_ops :=
    match _module_ops self with
    | [] => map (λ m, (op_l, m)) (_modules self)
    | ops => ops
    end in
  let ret := for_in module_ops (λ '(op, m) ret, ret ++ emit_fn op m) [] in
  for_in (_variables self)
    (λ '(k, v) ret, ret ++ ["export " +:+ k +:+ "=" +:+ v]) ret.

Definition emit_unload_commands (self : t) (w : Ambient MS)
  : list string :=
  let ms := modules_system w in
  let emit_fn op :=
    match op with
    | op_l => modules.emit_unload_commands ms
    | op_u => modules.emit_load_commands ms
    end in
  let ret :=
    for_in (_variables self).*1 (λ var ret, ret ++ ["unset " +:+ var]) []
  in
  let module_ops :=
    match _module_ops self with
    | [] => map (λ m, (op_l, m)) (reverse (_modules self))
    | ops => reverse ops
    end in
  for_in module_ops (λ '(op, m) ret, ret ++ emit_fn op m) ret.
End methods.

(** [self == other] for two instances of the class, for which the
    [isinstance] test passes. *)
Definition __eq__ (self other : t) : bool :=
  bool_decide (_name self = _name other)
  && bool_decide
       ((list_to_set (_modules self) : gset string)
        = list_to_set (_modules other))
  && odict_eq (_variables self) (_variables other).

(** The property [name]. *)
Definition name (self : t) : string := _name self.

(** [details()]: the name, the modules and one line per variable. *)
Definition details (self : t) : string :=
  let variables :=
    str_join newline
      (map (λ '(k, v), "        " +:+ ("- " +:+ k +:+ "=" +:+ v))
         (_variables self)) in
  let lines :=
    [ _name self +:+ ":";
      "    modules: " +:+ str_join ", " (_modules self);
      ("    variables:" +:+ (if decide (variables = "") then "" else newline))
      +:+ variables ] in
  str_join newline lines.

Definition __str__ (self : t) : string := name self.

#[global] Instance ModuleOp_eq_dec : EqDecision ModuleOp.
Proof. solve_decision. Defined.

End Environment.

(** [swap_environments(src, dst)]. *)
Definition swap_environments {MS : Type} `{!modules.ModulesSystem MS}
    (src dst : Environment.t) (w : Ambient MS)
  : Environment.t * Environment.t * Ambient MS :=
  let '(src, w) := Environment.unload src w in
  let '(dst, w) := Environment.load dst w in
  (src, dst, w).

(** ** [class EnvironmentSnapshot] *)

Module EnvironmentSnapshot.

(** The instance attributes.  [__init__] does not call the constructor of
    the base class: [_loaded] is unset until [load] runs, and the
    variables are a plain [dict]. *)
Record t := mk {
  _name : string;
  _modules : list string;
  _variables : gmap string string;
  _conflicted : list string;
  _loaded : option bool;
}.

Section methods.
Context {MS : Type} `{!modules.ModulesSystem MS}.

(** [EnvironmentSnapshot(name)]; the default name is
    ['env_snapshot']. *)
Definition __init__ (name : string) (w : Ambient MS) : t :=
  mk name (modules.loaded_modules (modules_system w)) (environ w) []
     None.

(** [os.environ.clear()] then [os.environ.update(self._variables)]. *)
Definition load (self : t) (w : Ambient MS) : t * Ambient MS :=
  let w := set_environ ∅ w in
  let w := set_environ (_variables self ∪ environ w) w in
  (mk (_name self) (_modules self) (_variables self) (_conflicted self)
      (Some true),
   w).

Definition is_loaded (self : t) (w : Ambient MS)
  : Result bool * (t * Ambient MS) :=
  (inl (NotImplementedError
          "is_loaded is not a valid property of an environment snapshot"),
   (self, w)).

Definition unload (self : t) (w : Ambient MS)
  : Result unit * (t * Ambient MS) :=
  (inl (NotImplementedError "cannot unload an environment snapshot"),
   (self, w)).
End methods.

End EnvironmentSnapshot.

(** ** [class save_environment] *)

Module save_environment.

Record t := mk { environ_save : EnvironmentSnapshot.t }.

Section methods.
Context {MS : Type} `{!modules.ModulesSystem MS}.

Definition __init__ (w : Ambient MS) : t :=
  mk (EnvironmentSnapshot.__init__ "env_snapshot" w).

Definition __enter__ (self : t) : EnvironmentSnapshot.t :=
  environ_save self.

(** Restores the environment whatever exception ended the block. *)
Definition __exit__ (self : t) (w : Ambient MS) : t * Ambient MS :=
  let '(snapshot, w) := EnvironmentSnapshot.load (environ_save self) w in
  (mk snapshot, w).
End methods.

End save_environment.

(** ** [class StreamTest] of [microbenchmarks/stream/stream.py]

    The test is a client of the environments: its [setup] reads the name
    of the programming environment it is given.  The attributes that hold
    deferred sanity expressions ([sanity_patterns], [perf_patterns]) and
    the build system are left out; [super().__init__()] and
    [super().setup(...)] belong to the base class, outside the sources. *)

Module StreamTest.

(** The lookup [d[key]] of a missing key. *)
Inductive KeyError := mkKeyError (key : string).

(** A float literal of the source, kept as written: [mantissa] scaled by
    ten to the power minus [decimals].  No arithmetic is done on it. *)
Record Decimal := mkDecimal { mantissa : Z; decimals : nat }.

(** A reference tuple [(value, lower threshold, upper threshold)]. *)
Definition RefTuple : Type := Decimal * option Decimal * option Decimal.

(** The attributes of the test that this file assigns.
    [num_cpus_per_task] and [reference] are attributes of the base class,
    which [setup] overwrites; they are [None] while nothing was stored. *)
Record t := mk {
  descr : string;
  exclusive_access : bool;
  valid_systems : list string;
  valid_prog_environs : list string;
  modules : list string;
  num_tasks : Z;
  num_tasks_per_node : Z;
  stream_cpus_per_task : gmap string Z;
  variables : gmap string string;
  stream_bw_reference : gmap string (gmap string (gmap string RefTuple));
  tags : gset string;
  maintainers : list string;
  num_cpus_per_task : option Z;
  reference : option (gmap string (gmap string RefTuple));
}.

Definition set_num_cpus_per_task (n : option Z) (self : t) : t :=
  mk (descr self) (exclusive_access self) (valid_systems self)
     (valid_prog_environs self) (modules self) (num_tasks self)
     (num_tasks_per_node self) (stream_cpus_per_task self) (variables self)
     (stream_bw_reference self) (tags self) (maintainers self)
     n (reference self).

Definition set_reference (r : option (gmap string (gmap string RefTuple)))
    (self : t) : t :=
  mk (descr self) (exclusive_access self) (valid_systems self)
     (valid_prog_environs self) (modules self) (num_tasks self)
     (num_tasks_per_node self) (stream_cpus_per_task self) (variables self)
     (stream_bw_reference self) (tags self) (maintainers self)
     (num_cpus_per_task self) r.

Definition set_variables (vars : gmap string string) (self : t) : t :=
  mk (descr self) (exclusive_access self) (valid_systems self)
     (valid_prog_environs self) (modules self) (num_tasks self)
     (num_tasks_per_node self) (stream_cpus_per_task self) vars
     (stream_bw_reference self) (tags self) (maintainers self)
     (num_cpus_per_task self) (reference self).

(** [str(x)] for an attribute that holds an integer or [None]. *)
Definition str_of_int (x : option Z) : string :=
  match x with
  | Some n => pretty n
  | None => "None"
  end.

(** The assignments of [__init__], applied to the instance as the base
    class left it. *)
Definition __init__ (base : t) : t :=
  mk "STREAM Benchmark" true ["*"] ["PrgEnv-intel"]
     ["STREAM/5.10-intel-2018b"] 1 1
     (<["delcatty:delcatty" := 16%Z]>
        (<["phanpy:phanpy" := 24%Z]>
           (<["golett:golett" := 24%Z]>
              (<["swalot:swalot" := 20%Z]>
                 (<["victini:victini" := 36%Z]>
                    (<["skitty:skitty" := 36%Z]> ∅))))))
     (<["OMP_PLACES" := "threads"]> (<["OMP_PROC_BIND" := "spread"]> ∅))
     (<["PrgEnv-intel" :=
          <["skitty:skitty" :=
              <["triad" := (mkDecimal 502230 1, Some (mkDecimal (-15) 2),
                            None)]> ∅]>
            (<["victini:victini" :=
                 <["triad" := (mkDecimal 566430 1, Some (mkDecimal (-25) 2),
                               None)]> ∅]> ∅)]> ∅)
     {[ "production"; "maintenance_check" ]} ["ag"]
     (num_cpus_per_task base) (reference base).

(** The statements of [setup(partition, environ)] that precede the call
    to the base class; [fullname] is [partition.fullname].  A failed
    lookup raises after the assignments before it took effect. *)
Definition setup (self : t) (fullname : string) (environ : Environment.t)
  : (KeyError + unit) * t :=
  match stream_cpus_per_task self !! fullname with
  | None => (inl (mkKeyError fullname), self)
  | Some n =>
      let self := set_num_cpus_per_task (Some n) self in
      let envname := Environment.name environ in
      match stream_bw_reference self !! envname with
      | None => (inl (mkKeyError envname), self)
      | Some r =>
          let self := set_reference (Some r) self in
          let self :=
            set_variables
              (<["OMP_NUM_THREADS" := str_of_int (num_cpus_per_task self)]>
                 (variables self))
              self in
          (inr (), self)
      end
  end.

End StreamTest.

(** ** A reference modules system *)

Module simple_modules.

(** Modelled from the spec: a concrete module backend, standing in for
    [reframe.core.modules], which is outside the sources.  Its state is a
    table of conflicting pairs and the ordered list of loaded modules.
    Loading a module that is loaded already does nothing; a forced load
    first unloads the loaded modules that conflict with the new one and
    returns their names; a load without force unloads nothing. *)
Record t := mk {
  conflicts : list (string * string);
  loaded : list string;
}.

Definition conflict (s : t) (a b : string) : bool :=
  bool_decide ((a, b) ∈ conflicts s ∨ (b, a) ∈ conflicts s).

Definition is_module_loaded (s : t) (m : string) : bool :=
  bool_decide (m ∈ loaded s).

Definition load_module (s : t) (m : string) (force : bool)
  : list string * t :=
  if is_module_loaded s m then ([], s)
  else
    let unload_list :=
      if force then List.filter (conflict s m) (loaded s) else [] in
    (unload_list,
     mk (conflicts s)
        (List.filter (λ c, bool_decide (c ∉ unload_list)) (loaded s)
         ++ [m])).

Definition unload_module (s : t) (m : string) : t :=
  mk (conflicts s) (List.filter (λ c, bool_decide (c ≠ m)) (loaded s)).

#[global] Instance backend : modules.ModulesSystem t := {|
  modules.is_module_loaded := is_module_loaded;
  modules.load_module := load_module;
  modules.unload_module := unload_module;
  modules.loaded_modules := loaded;
  modules.emit_load_commands _ m := ["module load " +:+ m];
  modules.emit_unload_commands _ m := ["module unload " +:+ m];
|}.

End simple_modules.

(** ** The capability contract of a modules system

    What the environment protocol relies on, in terms of the set of loaded
    modules: the query tells membership; an unload removes the module; a
    load adds the module and removes exactly the modules it reports, which
    were loaded before; and only a forced load may report any. *)
Class ModulesContract (MS : Type) `{!modules.ModulesSystem MS} : Prop := {
  contract_query (ms : MS) (m : string) :
    modules.is_module_loaded ms m = true ↔ m ∈ modules.loaded_modules ms;
  contract_unload (ms : MS) (m : string) :
    (list_to_set (modules.loaded_modules (modules.unload_module ms m))
       : gset string)
    = list_to_set (modules.loaded_modules ms) ∖ {[m]};
  contract_load (ms : MS) (m : string) (force : bool) :
    (list_to_set
       (modules.loaded_modules (modules.load_module ms m force).2)
       : gset string)
    = (list_to_set (modules.loaded_modules ms)
       ∖ list_to_set (modules.load_module ms m force).1) ∪ {[m]};
  contract_conflicted (ms : MS) (m c : string) (force : bool) :
    c ∈ (modules.load_module ms m force).1 → c ∈ modules.loaded_modules ms;
  contract_no_force (ms : MS) (m : string) :
    (modules.load_module ms m false).1 = [];
}.

(** ** Worked scenarios

    Concrete environments and ambient states on the reference modules
    system, used to exercise the properties below. *)

Module scenarios.

(** No variable set, no module loaded, no conflict declared. *)
Definition no_conflicts : Ambient simple_modules.t :=
  mkAmbient ∅ (simple_modules.mk [] []) [].

(** An environment that lists the same module twice. *)
Definition env_twice : Environment.t :=
  Environment.mk "twice" ["m"; "m"] [] false ∅ [] ∅ [].

(** Modules [A] and [B] conflict; nothing is loaded. *)
Definition ab_conflict : Ambient simple_modules.t :=
  mkAmbient ∅ (simple_modules.mk [("A", "B")] []) [].

(** An environment whose two modules conflict with each other. *)
Definition env_rivals : Environment.t :=
  Environment.mk "rivals" ["A"; "B"] [] false ∅ [] ∅ [].

(** An environment with the single variable [X=new]. *)
Definition env_x : Environment.t :=
  Environment.mk "x" [] [("X", "new")] false ∅ [] ∅ [].

(** [X=old] is set in the process environment. *)
Definition x_old : Ambient simple_modules.t :=
  mkAmbient (<["X" := "old"]> ∅) (simple_modules.mk [] []) [].

(** [env_x] after one activation cycle under [x_old]. *)
Definition env_x_used : Environment.t :=
  (Environment.load_then_unload env_x x_old).1.

(** [CC=cc] is set and module [A], which conflicts with [B], is loaded. *)
Definition a_loaded : Ambient simple_modules.t :=
  mkAmbient (<["CC" := "cc"]> ∅) (simple_modules.mk [("A", "B")] ["A"]) [].

(** An environment with module [B] and two variables, the second of which
    refers to the first. *)
Definition env_b : Environment.t :=
  Environment.mk "b" ["B"] [("PREFIX", "/opt"); ("CC", "$PREFIX/bin/gcc")]
    false ∅ [] ∅ [].

(** An environment that lists module [B] twice. *)
Definition env_bb : Environment.t :=
  Environment.mk "bb" ["B"; "B"] [] false ∅ [] ∅ [].

(** [A] conflicts with [B] and [B] with [C]; [A] is loaded. *)
Definition chain_conflict : Ambient simple_modules.t :=
  mkAmbient ∅ (simple_modules.mk [("A", "B"); ("B", "C")] ["A"]) [].

(** An environment with the conflicting modules [B] and [C]. *)
Definition env_bc : Environment.t :=
  Environment.mk "bc" ["B"; "C"] [] false ∅ [] ∅ [].

(** Module [B] is loaded already. *)
Definition b_loaded : Ambient simple_modules.t :=
  mkAmbient ∅ (simple_modules.mk [] ["B"]) [].

(** The environment of the specification's first scenario. *)
Definition gcc_env : Environment.t :=
  Environment.mk "gcc-env" ["gcc/7.3.0"] [("CC", "gcc")] false ∅ [] ∅ [].

(** An ambient state in which [gcc_env] happens to be in effect. *)
Definition gcc_ambient : Ambient simple_modules.t :=
  mkAmbient (<["CC" := "gcc"]> ∅) (simple_modules.mk [] ["gcc/7.3.0"]) [].

(** Two environments that differ in the insertion order of their
    variables only. *)
Definition env_ab : Environment.t :=
  Environment.mk "e" [] [("A", "1"); ("B", "2")] false ∅ [] ∅ [].

Definition env_ba : Environment.t :=
  Environment.mk "e" [] [("B", "2"); ("A", "1")] false ∅ [] ∅ [].

(** Two environments that differ in the order of their modules only. *)
Definition env_foo_bar : Environment.t :=
  Environment.mk "env1" ["foo"; "bar"] [("A", "1"); ("B", "2")]
    false ∅ [] ∅ [].

Definition env_bar_foo : Environment.t :=
  Environment.mk "env1" ["bar"; "foo"] [("A", "1"); ("B", "2")]
    false ∅ [] ∅ [].

(** The programming environment [PrgEnv-intel] of [config/hpcugent.py]. *)
Definition prgenv_intel : Environment.t :=
  Environment.mk "PrgEnv-intel" ["icc/2018.3.222-GCC-7.3.0-2.30"] []
    false ∅ [] ∅ [].

(** A STREAM test before its [__init__] ran. *)
Definition stream_base : StreamTest.t :=
  StreamTest.mk "" false [] [] [] 0 0 ∅ ∅ ∅ ∅ [] None None.

End scenarios.

(** * Properties *)

(** ** Loops and text expansion *)

Lemma for_in_app {A S} (xs ys : list A) (body : A → S → S) (s : S) :
  for_in (xs ++ ys) body s = for_in ys body (for_in xs body s).
Proof.
  revert s. induction xs as [|x xs IH]; intros s; simpl; [done|]. apply IH.
Qed.

Lemma for_in_extend {A B} (xs : list A) (body : A → list B → list B)
    (g : A → list B) (acc : list B) :
  (∀ x ret, body x ret = ret ++ g x) →
  for_in xs body acc = acc ++ concat (map g xs).
Proof.
  intros Hbody. revert acc.
  induction xs as [|x xs IH]; intros acc; simpl.
  - by rewrite app_nil_r.
  - rewrite IH, Hbody. by rewrite <- app_assoc.
Qed.

Lemma concat_map_singleton {A B} (f : A → B) (xs : list A) :
  concat (map (λ x, [f x]) xs) = map f xs.
Proof. induction xs as [|x xs IH]; simpl; [done|]. by rewrite IH. Qed.





Example expandvars_references :
  expandvars (<["A" := "1"]> ∅) "$A/x ${A}y $B ${B} $ $$A ${A"
  = "1/x 1y $B ${B} $ $1 ${A".
Proof. by vm_compute. Qed.

Example fullmatch_identifier_examples :
  fullmatch_identifier "PrgEnv-intel" = true
  ∧ fullmatch_identifier "gcc_7" = true
  ∧ fullmatch_identifier "bad name!" = false
  ∧ fullmatch_identifier "" = false.
Proof. by vm_compute. Qed.

(** ** Ordered dictionaries *)
Lemma odict_setitem_keys k v od :
  (odict_setitem k v od).*1
  = if decide (k ∈ od.*1) then od.*1 else od.*1 ++ [k].
Proof.
  induction od as [|[k' v'] od IH]; [done|].
  cbn [odict_setitem]. rewrite (fmap_cons fst (k', v') od). cbn [fst].
  destruct (decide (k = k')) as [->|Hne].
  - rewrite fmap_cons. cbn [fst]. rewrite decide_True; [done|]. by left.
  - rewrite fmap_cons, IH. cbn [fst].
    destruct (decide (k ∈ od.*1)) as [Hin|Hnin].
    + rewrite decide_True; [done|]. by right.
    + rewrite decide_False; [done|]. rewrite not_elem_of_cons. done.
Qed.

Lemma odict_setitem_wf k v od : odict_wf od → odict_wf (odict_setitem k v od).
Proof.
  unfold odict_wf. intros Hwf. rewrite odict_setitem_keys.
  destruct (decide (k ∈ od.*1)); [done|].
  apply NoDup_app. split; [done|]. split.
  - intros x Hx Hin. apply list_elem_of_singleton in Hin. by subst.
  - apply NoDup_singleton.
Qed.

Lemma OrderedDict_wf items : odict_wf (OrderedDict items).
Proof.
  unfold OrderedDict.
  assert (Hgen : ∀ od, odict_wf od →
    odict_wf (for_in items (λ '(k, v) od, odict_setitem k v od) od)).
  { induction items as [|[k v] items IH]; intros od Hwf; cbn [for_in]; [done|].
    by apply IH, odict_setitem_wf. }
  apply Hgen. apply NoDup_nil_2.
Qed.

(** A well-formed ordered dictionary has as many items as its mapping has
    keys. *)
Lemma odict_size od : odict_wf od → size (odict_mapping od) = length od.
Proof.
  intros Hwf. unfold odict_mapping.
  rewrite <- (length_map_to_list (list_to_map od)).
  apply Permutation_length, map_to_list_to_map, Hwf.
Qed.

Lemma zip_keys_eq (ks1 ks2 : list string) :
  length ks1 = length ks2 →
  forallb (λ '(k1, k2), bool_decide (k1 = k2)) (zip ks1 ks2) = true →
  ks1 = ks2.
Proof.
  revert ks2. induction ks1 as [|k1 ks1 IH]; intros [|k2 ks2]; simpl;
    try done.
  intros [= Hlen] [Hk Hrest]%andb_true_iff.
  apply bool_decide_eq_true in Hk as ->. f_equal. by apply IH.
Qed.

Lemma odict_items_eq od1 od2 :
  odict_wf od1 → odict_wf od2 →
  od1.*1 = od2.*1 → odict_mapping od1 = odict_mapping od2 → od1 = od2.
Proof.
  unfold odict_wf, odict_mapping.
  revert od2. induction od1 as [|[k v1] od1 IH]; intros [|[k' v2] od2];
    simpl; try done.
  intros [Hk1 Hwf1]%NoDup_cons [Hk2 Hwf2]%NoDup_cons [= <- Hkeys] Hmap.
  assert (Hv : v1 = v2).
  { apply (f_equal (λ m, m !! k)) in Hmap.
    rewrite !lookup_insert_eq in Hmap. congruence. }
  subst v2. f_equal. apply IH; [done..|].
  apply (f_equal (delete k)) in Hmap.
  rewrite !delete_insert_eq in Hmap.
  rewrite !delete_id in Hmap; [done|by apply not_elem_of_list_to_map_1..].
Qed.

(** Between well-formed ordered dictionaries, [==] is equality of the item
    lists. *)
Lemma odict_eq_spec od1 od2 :
  odict_wf od1 → odict_wf od2 → odict_eq od1 od2 = true ↔ od1 = od2.
Proof.
  intros Hwf1 Hwf2. unfold odict_eq.
  rewrite andb_true_iff, bool_decide_eq_true. split.
  - intros [Hmap Hkeys]. apply odict_items_eq; [done..| |done].
    apply zip_keys_eq; [|done].
    rewrite !length_fmap, <- !odict_size by done. by rewrite Hmap.
  - intros <-. split; [done|].
    induction (od1.*1) as [|k ks IH]; simpl; [done|].
    by rewrite bool_decide_true.
Qed.

(** ** Construction *)

(** No class attribute of [Environment] is bound to one of the names
    [__init__] assigns to, so every assignment goes to the instance and the
    constructor returns. *)
Lemma init_constructs (name : string) (modules : list string)
    (variables : list (string * string)) :
  Environment.__init__ name modules variables
  = inr (Environment.mk name modules (OrderedDict variables) false ∅ [] ∅ []).
Proof. reflexivity. Qed.

(** C7.  The name ['bad name!'] does not match [(\w|-)+].  The typed field
    declared for [name] at the top of the class body is replaced by the
    property of the same name further down, and [__init__] assigns to
    [_name], which no descriptor guards: the constructor raises nothing
    and returns an environment named ['bad name!']. *)
Theorem init_accepts_invalid_name :
  fullmatch_identifier "bad name!" = false
  ∧ Environment.class_dict !! "name" = Some property
  ∧ Environment.class_dict !! "_name" = None
  ∧ Environment.__init__ "bad name!" [] []
    = inr (Environment.mk "bad name!" [] [] false ∅ [] ∅ []).
Proof. repeat split; vm_compute; reflexivity. Qed.

(** ** Equality *)

(** C2, as the code has it.  Two environments, whose variables are ordered
    dictionaries, compare equal exactly when they have the same name, the
    same set of modules whatever the order, and the same variable items in
    the same insertion order. *)
Theorem eq_compares_variables_in_order (a b : Environment.t) :
  odict_wf (Environment._variables a) →
  odict_wf (Environment._variables b) →
  Environment.__eq__ a b = true
  ↔ Environment._name a = Environment._name b
    ∧ (list_to_set (Environment._modules a) : gset string)
      = list_to_set (Environment._modules b)
    ∧ Environment._variables a = Environment._variables b.
Proof.
  intros Hwfa Hwfb. unfold Environment.__eq__.
  rewrite !andb_true_iff, !bool_decide_eq_true, odict_eq_spec by done.
  tauto.
Qed.

(** C2, as stated, fails.  [env_ab] and [env_ba] are built from the same
    name, no modules and the variables [A=1], [B=2] inserted in opposite
    orders; they denote the same mapping, yet [==] is false, because
    both [_variables] are ordered dictionaries. *)
Lemma eq_variables_order_counterexample :
  Environment.__init__ "e" [] [("A", "1"); ("B", "2")] = inr scenarios.env_ab
  ∧ Environment.__init__ "e" [] [("B", "2"); ("A", "1")] = inr scenarios.env_ba
  ∧ ¬ (Environment.__eq__ scenarios.env_ab scenarios.env_ba = true
       ↔ Environment._name scenarios.env_ab = Environment._name scenarios.env_ba
         ∧ (list_to_set (Environment._modules scenarios.env_ab) : gset string)
           = list_to_set (Environment._modules scenarios.env_ba)
         ∧ odict_mapping (Environment._variables scenarios.env_ab)
           = odict_mapping (Environment._variables scenarios.env_ba)).
Proof.
  split; [reflexivity|]. split; [reflexivity|].
  intros [_ Hclaim].
  assert (Heq : Environment.__eq__ scenarios.env_ab scenarios.env_ba = true).
  { apply Hclaim. repeat split; by vm_compute. }
  vm_compute in Heq. discriminate.
Qed.

(** ** The protocol on any modules system *)

Section props.
Context {MS : Type} `{!modules.ModulesSystem MS}.
Import Environment.
Implicit Types (self : Environment.t) (w : Ambient MS).
Implicit Types (st : Environment.t * Ambient MS).

(** *** The loop over the modules in [load] *)

Lemma load_module_step_eq m self w :
  load_module_step m (self, w)
  = let res := modules.load_module (modules_system w) m true in
    (mk (_name self) (_modules self) (_variables self) (_loaded self)
        (_saved_variables self) (_conflicted self ++ res.1)
        (if modules.is_module_loaded (modules_system w) m
         then {[m]} ∪ _preloaded self else _preloaded self)
        (_module_ops self ++ map (λ c, (op_u, c)) res.1 ++ [(op_l, m)]),
     mkAmbient (environ w) res.2 (requests w ++ [ReqLoad m true])).
Proof.
  unfold load_module_step, rt_load_module.
  destruct (modules.load_module (modules_system w) m true) as [us ms'].
  simpl. f_equal.
  assert (Hops : ∀ (cs : list string) (e : t),
    for_in cs (λ c e, set_module_ops (_module_ops e ++ [(op_u, c)]) e) e
    = set_module_ops (_module_ops e ++ map (λ c, (op_u, c)) cs) e).
  { induction cs as [|c cs IH]; intros e; simpl.
    - rewrite app_nil_r. by destruct e.
    - rewrite IH. unfold set_module_ops. simpl. by rewrite <- app_assoc. }
  rewrite Hops.
  destruct (modules.is_module_loaded (modules_system w) m); simpl;
    by rewrite <- app_assoc.
Qed.

Lemma load_modules_frame ms st :
  let st' := for_in ms load_module_step st in
  environ st'.2 = environ st.2
  ∧ _name st'.1 = _name st.1
  ∧ _modules st'.1 = _modules st.1
  ∧ _variables st'.1 = _variables st.1
  ∧ _loaded st'.1 = _loaded st.1
  ∧ _saved_variables st'.1 = _saved_variables st.1.
Proof.
  revert st. induction ms as [|m ms IH]; intros [self w]; cbn [for_in];
    [done|].
  rewrite load_module_step_eq. cbn zeta.
  match goal with
  | |- context [for_in ms load_module_step ?s] => specialize (IH s)
  end.
  simpl in *. exact IH.
Qed.

Lemma load_modules_preloaded_mono ms st m :
  m ∈ _preloaded st.1 →
  m ∈ _preloaded (for_in ms load_module_step st).1.
Proof.
  revert st. induction ms as [|m' ms IH]; intros [self w] Hin; cbn [for_in];
    [done|].
  apply IH. rewrite load_module_step_eq. simpl in *.
  destruct (modules.is_module_loaded _ _); set_solver.
Qed.

Lemma load_modules_conflicted_mono ms st c :
  c ∈ _conflicted st.1 →
  c ∈ _conflicted (for_in ms load_module_step st).1.
Proof.
  revert st. induction ms as [|m' ms IH]; intros [self w] Hin; cbn [for_in];
    [done|].
  apply IH. rewrite load_module_step_eq. simpl in *.
  apply elem_of_app. by left.
Qed.

(** *** The loop over the variables in [load] *)

Lemma load_variable_step_eq k v self w :
  load_variable_step (k, v) (self, w)
  = (set_saved_variables
       (match environ w !! k with
        | Some old => <[k := old]> (_saved_variables self)
        | None => _saved_variables self
        end) self,
     set_environ (<[k := expandvars (environ w) v]> (environ w)) w).
Proof.
  unfold load_variable_step. destruct (environ w !! k); [done|].
  by destruct self.
Qed.

Lemma load_variables_frame vars st :
  let st' := for_in vars load_variable_step st in
  modules_system st'.2 = modules_system st.2
  ∧ requests st'.2 = requests st.2
  ∧ _name st'.1 = _name st.1
  ∧ _modules st'.1 = _modules st.1
  ∧ _variables st'.1 = _variables st.1
  ∧ _loaded st'.1 = _loaded st.1
  ∧ _conflicted st'.1 = _conflicted st.1
  ∧ _preloaded st'.1 = _preloaded st.1
  ∧ _module_ops st'.1 = _module_ops st.1.
Proof.
  revert st. induction vars as [|[k v] vars IH]; intros [self w];
    cbn [for_in]; [done|].
  rewrite load_variable_step_eq.
  match goal with
  | |- context [for_in vars load_variable_step ?s] => specialize (IH s)
  end.
  simpl in *. exact IH.
Qed.

Lemma load_variables_other vars st k :
  k ∉ vars.*1 →
  let st' := for_in vars load_variable_step st in
  environ st'.2 !! k = environ st.2 !! k
  ∧ _saved_variables st'.1 !! k = _saved_variables st.1 !! k.
Proof.
  revert st. induction vars as [|[k' v] vars IH]; intros [self w] Hk;
    cbn [for_in]; [done|].
  rewrite fmap_cons, not_elem_of_cons in Hk. destruct Hk as [Hne Hk].
  simpl in Hne.
  specialize (IH (load_variable_step (k', v) (self, w)) Hk).
  rewrite load_variable_step_eq in *. simpl in *.
  destruct IH as [-> ->]. rewrite lookup_insert_ne by done.
  destruct (environ w !! k'); [by rewrite lookup_insert_ne|done].
Qed.

Lemma load_variables_at vars pre k v post st :
  vars = pre ++ (k, v) :: post →
  odict_wf vars →
  let at_set_time := environ (for_in pre load_variable_step st).2 in
  let st' := for_in vars load_variable_step st in
  environ st'.2 !! k = Some (expandvars at_set_time v)
  ∧ _saved_variables st'.1 !! k
    = match environ st.2 !! k with
      | Some old => Some old
      | None => _saved_variables st.1 !! k
      end.
Proof.
  intros -> Hwf. unfold odict_wf in Hwf.
  rewrite fmap_app, fmap_cons in Hwf. simpl in Hwf.
  apply NoDup_app in Hwf as (_ & Hpre & Hpost).
  apply NoDup_cons in Hpost as [Hpost _].
  assert (Hk : k ∉ pre.*1) by (intros Hin; apply (Hpre _ Hin); left).
  cbn zeta. rewrite for_in_app. cbn [for_in].
  destruct (load_variables_other pre st k Hk) as [Henv Hsaved].
  cbn zeta in *.
  destruct (for_in pre load_variable_step st) as [self1 w1] eqn:Hst1.
  destruct (load_variables_other post
              (load_variable_step (k, v) (self1, w1)) k Hpost) as [He Hs].
  cbn zeta in *. rewrite He, Hs, load_variable_step_eq. simpl in *.
  rewrite lookup_insert_eq. split; [done|].
  rewrite Henv.
  destruct (environ st.2 !! k); [by rewrite lookup_insert_eq|done].
Qed.

Lemma load_eq self w :
  load self w
  = let st := for_in (_variables self) load_variable_step
                (for_in (_modules self) load_module_step (self, w)) in
    (set_loaded true st.1, st.2).
Proof. unfold load. simpl. by destruct (for_in (_variables self) _ _). Qed.

(** *** The loops of [unload] *)

Lemma unload_variables_lookup self vars w k :
  let w' := for_in vars (unload_variable_step self) w in
  environ w' !! k
  = (if decide (k ∈ vars.*1) then _saved_variables self !! k
     else environ w !! k).
Proof.
  revert w. induction vars as [|[k' v] vars IH]; intros w; cbn [for_in];
    [done|].
  cbn zeta in *. rewrite IH, fmap_cons. cbn [fst].
  assert (Hstep : environ (unload_variable_step self (k', v) w) !! k
                  = if decide (k = k') then _saved_variables self !! k
                    else environ w !! k).
  { unfold unload_variable_step.
    destruct (decide (k = k')) as [->|Hne].
    - destruct (_saved_variables self !! k') eqn:Hs; simpl.
      + by rewrite lookup_insert_eq.
      + destruct (environ w !! k') eqn:He; simpl;
          [by rewrite lookup_delete_eq|done].
    - destruct (_saved_variables self !! k') eqn:Hs; simpl.
      + by rewrite lookup_insert_ne.
      + destruct (environ w !! k') eqn:He; simpl;
          [by rewrite lookup_delete_ne|done]. }
  rewrite Hstep.
  destruct (decide (k ∈ vars.*1)) as [Hin|Hnin].
  - rewrite decide_True; [done|]. by right.
  - destruct (decide (k = k')) as [->|Hne].
    + rewrite decide_True; [done|]. by left.
    + rewrite decide_False; [done|]. rewrite not_elem_of_cons. done.
Qed.

Lemma unload_variables_frame self vars w :
  let w' := for_in vars (unload_variable_step self) w in
  modules_system w' = modules_system w ∧ requests w' = requests w.
Proof.
  revert w. induction vars as [|[k v] vars IH]; intros w; cbn [for_in];
    [done|].
  cbn zeta in *.
  destruct (IH (unload_variable_step self (k, v) w)) as [-> ->].
  unfold unload_variable_step.
  destruct (_saved_variables self !! k); [done|].
  by destruct (environ w !! k).
Qed.

Lemma unload_modules_eq (P : gset string) ms w :
  let w' :=
    for_in ms
      (λ m w, if decide (m ∈ P) then w else rt_unload_module m w) w in
  environ w' = environ w
  ∧ requests w' = requests w ++ map ReqUnload (filter (λ m, m ∉ P) ms).
Proof.
  revert w. induction ms as [|m ms IH]; intros w; simpl.
  - by rewrite app_nil_r.
  - destruct (IH (if decide (m ∈ P) then w else rt_unload_module m w))
      as [-> ->].
    rewrite filter_cons.
    destruct (decide (m ∈ P)) as [Hin|Hnin].
    + by rewrite decide_False by (intros Hn; by apply Hn).
    + rewrite decide_True by done. simpl. by rewrite <- app_assoc.
Qed.

Lemma reload_conflicted_eq cs w :
  let w' := for_in cs (λ m w, (rt_load_module m false w).2) w in
  environ w' = environ w
  ∧ requests w' = requests w ++ map (λ c, ReqLoad c false) cs.
Proof.
  revert w. induction cs as [|c cs IH]; intros w; simpl.
  - by rewrite app_nil_r.
  - destruct (IH (rt_load_module c false w).2) as [-> ->].
    unfold rt_load_module.
    destruct (modules.load_module (modules_system w) c false). simpl.
    by rewrite <- app_assoc.
Qed.

Lemma unload_eq self w :
  _loaded self = true →
  unload self w
  = (set_loaded false self,
     for_in (_conflicted self) (λ m w, (rt_load_module m false w).2)
       (for_in (reverse (_modules self))
          (λ m w, if decide (m ∈ _preloaded self) then w
                  else rt_unload_module m w)
          (for_in (_variables self) (unload_variable_step self) w))).
Proof. intros Hl. unfold unload. by rewrite Hl. Qed.

Lemma load_then_unload_eq self w :
  load_then_unload self w = unload (load self w).1 (load self w).2.
Proof. unfold load_then_unload. by destruct (load self w). Qed.

(** C3.  Let the environment declare [X=new] (at any position of its
    ordered dictionary) and let [X=old] be set in the ambient state.  After
    [load], [X] holds [new] expanded against the process environment as it
    was when the loop reached [X], that is after the modules were loaded and
    the variables declared before [X] were set.  After the matching
    [unload], [X] holds [old] again. *)
Theorem load_shadows_unload_restores self w pre X new post old :
  _variables self = pre ++ (X, new) :: post →
  odict_wf (_variables self) →
  environ w !! X = Some old →
  let at_set_time :=
    environ (for_in pre load_variable_step
               (for_in (_modules self) load_module_step (self, w))).2 in
  environ (load self w).2 !! X = Some (expandvars at_set_time new)
  ∧ environ (load_then_unload self w).2 !! X = Some old.
Proof.
  intros Hvars Hwf Hold. cbn zeta.
  rewrite load_then_unload_eq, load_eq. cbn zeta. cbn [fst snd].
  pose proof (load_modules_frame (_modules self) (self, w)) as Hm.
  cbn zeta in Hm. cbn [fst snd] in Hm.
  destruct Hm as (Henv & _ & _ & Hv & _ & Hs).
  set (stm := for_in (_modules self) load_module_step (self, w)) in *.
  pose proof (load_variables_at (_variables self) pre X new post stm Hvars Hwf)
    as [Hset Hsaved].
  pose proof (load_variables_frame (_variables self) stm) as Hf.
  cbn zeta in Hf. destruct Hf as (_ & _ & _ & _ & Hv' & _).
  set (st := for_in (_variables self) load_variable_step stm) in *.
  split; [exact Hset|].
  rewrite unload_eq by done. cbn [snd].
  destruct (reload_conflicted_eq (_conflicted (set_loaded true st.1))
    (for_in (reverse (_modules (set_loaded true st.1)))
       (λ m w, if decide (m ∈ _preloaded (set_loaded true st.1)) then w
               else rt_unload_module m w)
       (for_in (_variables (set_loaded true st.1))
          (unload_variable_step (set_loaded true st.1)) st.2))) as [-> _].
  destruct (unload_modules_eq (_preloaded (set_loaded true st.1))
    (reverse (_modules (set_loaded true st.1)))
    (for_in (_variables (set_loaded true st.1))
       (unload_variable_step (set_loaded true st.1)) st.2)) as [-> _].
  rewrite unload_variables_lookup. cbn [set_loaded _variables _saved_variables].
  rewrite Hv', Hv. cbn [fst].
  rewrite decide_True.
  - rewrite Hsaved, Henv. cbn [snd]. by rewrite Hold.
  - rewrite Hvars, fmap_app, fmap_cons. apply elem_of_app. right. by left.
Qed.

(** C5.  If the modules system reports the declared module [m] loaded
    when the loop of [load] reaches it, then the matching [unload], in
    whatever ambient state [w'] it runs, issues no unload request for
    [m]. *)
Theorem preloaded_never_unloaded self w pre m post w' :
  _modules self = pre ++ m :: post →
  modules.is_module_loaded
    (modules_system (for_in pre load_module_step (self, w)).2) m = true →
  ∃ issued,
    requests (unload (load self w).1 w').2 = requests w' ++ issued
    ∧ ReqUnload m ∉ issued.
Proof.
  intros Hmods Hloaded.
  assert (Hpre : m ∈ _preloaded (load self w).1).
  { rewrite load_eq. cbn zeta. cbn [fst set_loaded _preloaded].
    pose proof (load_variables_frame (_variables self)
                  (for_in (_modules self) load_module_step (self, w))) as Hf.
    cbn zeta in Hf. destruct Hf as (_ & _ & _ & _ & _ & _ & _ & -> & _).
    rewrite Hmods, for_in_app. cbn [for_in].
    apply load_modules_preloaded_mono.
    destruct (for_in pre load_module_step (self, w)) as [self0 w0].
    rewrite load_module_step_eq. cbn zeta. cbn [fst snd _preloaded] in *.
    rewrite Hloaded. set_solver. }
  assert (Hl : _loaded (load self w).1 = true) by by rewrite load_eq.
  set (self1 := (load self w).1) in *.
  rewrite unload_eq by done. cbn [snd].
  eexists. split.
  - match goal with
    | |- context [for_in (_conflicted self1) _ ?w0] =>
        destruct (reload_conflicted_eq (_conflicted self1) w0) as [_ ->]
    end.
    match goal with
    | |- context [for_in (reverse (_modules self1)) _ ?w0] =>
        destruct (unload_modules_eq (_preloaded self1)
                    (reverse (_modules self1)) w0) as [_ ->]
    end.
    destruct (unload_variables_frame self1 (_variables self1) w') as [_ ->].
    rewrite <- app_assoc. reflexivity.
  - intros Hin. apply elem_of_app in Hin as [Hin|Hin].
    + apply list_elem_of_fmap in Hin as (m' & [= <-] & Hin).
      apply list_elem_of_filter in Hin as [Hnot _]. by apply Hnot.
    + apply list_elem_of_fmap in Hin as (c & [=] & _).
Qed.

(** C6.  [emit_unload_commands] returns one [unset NAME] per declared
    variable in declared order, followed by the module commands: the log of
    module operations replayed backwards with the roles swapped (the unload
    commands of the modules system for a logged load, its load commands for
    a logged unload) or, when the log is empty, the unload commands for the
    declared modules in reverse declared order. *)
Theorem emit_unload_commands_spec (self : Environment.t) (w : Ambient MS) :
  Environment.emit_unload_commands self w
  = (map (λ k, "unset " +:+ k) (Environment._variables self).*1 ++
    match Environment._module_ops self with
    | [] =>
        concat (map (modules.emit_unload_commands (modules_system w))
                  (reverse (Environment._modules self)))
    | ops =>
        concat
          (map (λ '(op, m),
                  match op with
                  | Environment.op_l =>
                      modules.emit_unload_commands (modules_system w) m
                  | Environment.op_u =>
                      modules.emit_load_commands (modules_system w) m
                  end)
               (reverse ops))
    end)%list.
Proof.
  unfold Environment.emit_unload_commands.
  rewrite (for_in_extend _ _ (λ var, ["unset " +:+ var]) []) by done.
  rewrite concat_map_singleton. simpl.
  set (g := λ '(op, m),
              match op with
              | op_l => modules.emit_unload_commands (modules_system w) m
              | op_u => modules.emit_load_commands (modules_system w) m
              end).
  destruct (Environment._module_ops self) as [|o ops] eqn:Hops.
  - rewrite (for_in_extend _ _ g) by (by intros [[] m] ret).
    f_equal. by rewrite map_map.
  - by rewrite (for_in_extend _ _ g) by (by intros [[] m] ret).
Qed.

(** C8.  On a snapshot, reading [is_loaded] and calling [unload] both
    raise [NotImplementedError], and leave the snapshot and the ambient
    state as they were. *)
Theorem snapshot_unsupported (s : EnvironmentSnapshot.t) (w : Ambient MS) :
  (∃ msg, EnvironmentSnapshot.is_loaded s w
          = (inl (NotImplementedError msg), (s, w)))
  ∧ (∃ msg, EnvironmentSnapshot.unload s w
            = (inl (NotImplementedError msg), (s, w))).
Proof. split; eexists; reflexivity. Qed.

(** C10.  [EnvironmentSnapshot.load] makes the process environment equal
    to the captured copy, and leaves the state of the modules system and
    the history of requests untouched; so does [save_environment.__exit__].
    The constructor did capture the list of loaded modules. *)
Theorem snapshot_load_leaves_modules (s : EnvironmentSnapshot.t)
    (g : save_environment.t) (name : string) (w w0 : Ambient MS) :
  (environ (EnvironmentSnapshot.load s w).2 = EnvironmentSnapshot._variables s
   ∧ modules_system (EnvironmentSnapshot.load s w).2 = modules_system w
   ∧ requests (EnvironmentSnapshot.load s w).2 = requests w)
  ∧ (environ (save_environment.__exit__ g w).2
     = EnvironmentSnapshot._variables (save_environment.environ_save g)
     ∧ modules_system (save_environment.__exit__ g w).2 = modules_system w
     ∧ requests (save_environment.__exit__ g w).2 = requests w)
  ∧ EnvironmentSnapshot._modules (EnvironmentSnapshot.__init__ name w0)
    = modules.loaded_modules (modules_system w0).
Proof.
  repeat split; simpl; try done; apply (right_id ∅ (∪)).
Qed.

(** [is_loaded] reads the declared modules and variables and the ambient
    state, and nothing else. *)
Lemma is_loaded_spec (self : Environment.t) (w : Ambient MS) :
  Environment.is_loaded self w = true
  ↔ (∀ m, m ∈ Environment._modules self →
          modules.is_module_loaded (modules_system w) m = true)
    ∧ (∀ k v, (k, v) ∈ Environment._variables self →
              environ w !! k = Some (expandvars (environ w) v)).
Proof.
  unfold Environment.is_loaded.
  rewrite andb_true_iff, !forallb_forall.
  split; intros [Hm Hv]; split.
  - intros m Hin. apply Hm. by apply list_elem_of_In.
  - intros k v Hin. apply list_elem_of_In, Hv in Hin.
    by apply bool_decide_eq_true in Hin.
  - intros m Hin. apply Hm. by apply list_elem_of_In.
  - intros [k v] Hin. apply bool_decide_eq_true, Hv. by apply list_elem_of_In.
Qed.
End props.

(** C9.  On every modules system, [is_loaded] is true exactly when every
    declared module is reported loaded and every declared variable is set
    to its declared value, expanded.  The flag [_loaded] has no say: the
    environment of the first scenario, fresh from its constructor, is
    loaded in [gcc_ambient]. *)
Theorem is_loaded_from_ambient_state :
  (∀ (MS : Type) (backend : modules.ModulesSystem MS)
     (self : Environment.t) (w : Ambient MS),
     Environment.is_loaded self w = true
     ↔ (∀ m, m ∈ Environment._modules self →
             modules.is_module_loaded (modules_system w) m = true)
       ∧ (∀ k v, (k, v) ∈ Environment._variables self →
                 environ w !! k = Some (expandvars (environ w) v)))
  ∧ (∃ self : Environment.t,
       Environment.__init__ "gcc-env" ["gcc/7.3.0"] [("CC", "gcc")] = inr self
       ∧ Environment._loaded self = false
       ∧ Environment.is_loaded self scenarios.gcc_ambient = true).
Proof.
  split.
  - intros. apply is_loaded_spec.
  - eexists. split; [reflexivity|]. split; [reflexivity|]. by vm_compute.
Qed.

(** ** The protocol on a modules system that honours the contract *)

Section contract.
Context {MS : Type} `{!modules.ModulesSystem MS} `{!ModulesContract MS}.
Import Environment.
Implicit Types (self : Environment.t) (w : Ambient MS).
Implicit Types (st : Environment.t * Ambient MS).

Lemma unload_modules_set (P : gset string) ms w :
  loaded_set (for_in ms (λ m w, if decide (m ∈ P) then w
                                else rt_unload_module m w) w)
  = loaded_set w ∖ (list_to_set ms ∖ P).
Proof.
  revert w. induction ms as [|m ms IH]; intros w; cbn [for_in].
  - set_solver.
  - rewrite IH. destruct (decide (m ∈ P)) as [Hin|Hnin].
    + set_solver.
    + unfold loaded_set, rt_unload_module. cbn [modules_system].
      rewrite contract_unload. set_solver.
Qed.

Lemma reload_conflicted_set cs w :
  loaded_set (for_in cs (λ m w, (rt_load_module m false w).2) w)
  = loaded_set w ∪ list_to_set cs.
Proof.
  revert w. induction cs as [|c cs IH]; intros w; cbn [for_in].
  - set_solver.
  - rewrite IH. unfold loaded_set at 1, rt_load_module.
    pose proof (contract_load (modules_system w) c false) as Hload.
    pose proof (contract_no_force (modules_system w) c) as Hnf.
    destruct (modules.load_module (modules_system w) c false) as [us ms'].
    cbn [fst snd modules_system] in *. subst us.
    rewrite Hload. unfold loaded_set. set_solver.
Qed.

Lemma unload_loaded_set self w :
  _loaded self = true →
  loaded_set (unload self w).2
  = (loaded_set w ∖ (list_to_set (_modules self) ∖ _preloaded self))
    ∪ list_to_set (_conflicted self).
Proof.
  intros Hl. rewrite unload_eq by done. cbn [snd].
  rewrite reload_conflicted_set, unload_modules_set.
  assert (Hrev : (list_to_set (reverse (_modules self)) : gset string)
                 = list_to_set (_modules self)).
  { apply set_eq. intros x.
    by rewrite !elem_of_list_to_set, elem_of_reverse. }
  rewrite Hrev. unfold loaded_set at 1.
  by destruct (unload_variables_frame self (_variables self) w) as [-> _].
Qed.

Lemma load_modules_set ms self w :
  let st' := for_in ms load_module_step (self, w) in
  ∃ C,
    _conflicted st'.1 = _conflicted self ++ C
    ∧ (NoDup ms → (∀ c, c ∈ C → c ∉ ms) →
       loaded_set st'.2 = (loaded_set w ∖ list_to_set C) ∪ list_to_set ms
       ∧ (∀ c, c ∈ C → c ∈ loaded_set w)
       ∧ _preloaded st'.1
         = _preloaded self ∪ (list_to_set ms ∩ loaded_set w)).
Proof.
  revert self w. induction ms as [|m ms IH]; intros self w; cbn [for_in].
  - exists []. cbn zeta. cbn [fst snd]. split; [by rewrite app_nil_r|].
    intros _ _. set_solver.
  - rewrite load_module_step_eq. cbn zeta.
    pose proof (contract_load (modules_system w) m true) as Hload.
    pose proof (λ c, contract_conflicted (modules_system w) m c true) as Hconf.
    pose proof (contract_query (modules_system w) m) as Hq.
    destruct (modules.load_module (modules_system w) m true) as [us ms'].
    cbn [fst snd] in *.
    match goal with
    | |- context [for_in ms load_module_step (?s, ?w0)] =>
        destruct (IH s w0) as (C & HC & Hrest)
    end.
    cbn zeta in *. cbn [_conflicted _preloaded] in HC, Hrest.
    exists (us ++ C). split; [by rewrite HC, app_assoc|].
    intros Hnd Hnot. apply NoDup_cons in Hnd as [Hm Hnd].
    destruct Hrest as (Hset & Hsub & Hpre); [done| |].
    { intros c Hc Hin. apply (Hnot c); [set_solver|by right]. }
    assert (Hus : ∀ c, c ∈ us → c ∈ loaded_set w ∧ c ≠ m ∧ c ∉ ms).
    { intros c Hc. split; [|split].
      - unfold loaded_set. rewrite elem_of_list_to_set. eauto.
      - intros ->. apply (Hnot m); [set_solver|by left].
      - intros Hin. apply (Hnot c); [set_solver|by right]. }
    assert (HCm : ∀ c, c ∈ C → c ≠ m).
    { intros c Hc ->. apply (Hnot m); [set_solver|by left]. }
    unfold loaded_set in *. cbn [modules_system] in *.
    rewrite Hload in Hset, Hsub, Hpre.
    split; [|split].
    + rewrite Hset. apply set_eq. intros x.
      rewrite !elem_of_union, !elem_of_difference, !elem_of_union,
        !elem_of_difference, !elem_of_list_to_set, elem_of_app,
        elem_of_cons, elem_of_singleton.
      destruct (decide (x = m)) as [->|Hxm]; [naive_solver|]. tauto.
    + intros c Hc. apply elem_of_app in Hc as [Hc|Hc].
      * by apply Hus.
      * specialize (Hsub c Hc). specialize (HCm c Hc). set_solver.
    + rewrite Hpre. apply set_eq. intros x.
      destruct (modules.is_module_loaded (modules_system w) m) eqn:Hl.
      * assert (m ∈ modules.loaded_modules (modules_system w)) by by apply Hq.
        rewrite !elem_of_union, !elem_of_intersection, !elem_of_union,
          !elem_of_difference, !elem_of_list_to_set, elem_of_cons,
          !elem_of_singleton.
        destruct (decide (x = m)) as [->|Hxm]; [naive_solver|].
        split; [|naive_solver].
        intros [[?|?]|[? [[? ?]|?]]]; naive_solver.
      * assert (m ∉ modules.loaded_modules (modules_system w)).
        { intros Hin. apply Hq in Hin. congruence. }
        rewrite !elem_of_union, !elem_of_intersection, !elem_of_union,
          !elem_of_difference, !elem_of_list_to_set, elem_of_cons,
          !elem_of_singleton.
        destruct (decide (x = m)) as [->|Hxm]; [naive_solver|].
        split; [naive_solver|].
        intros [?|[[?|?] ?]]; naive_solver.
Qed.

Lemma load_variables_round_trip self w :
  odict_wf (_variables self) →
  _saved_variables self = ∅ →
  environ (load_then_unload self w).2 = environ w.
Proof.
  intros Hwf Hfresh. rewrite load_then_unload_eq.
  rewrite unload_eq by by rewrite load_eq.
  rewrite load_eq. cbn zeta. cbn [fst snd].
  pose proof (load_modules_frame (_modules self) (self, w)) as Hm.
  cbn zeta in Hm. cbn [fst snd] in Hm.
  destruct Hm as (Henv & _ & _ & Hv & _ & Hs).
  set (stm := for_in (_modules self) load_module_step (self, w)) in *.
  pose proof (load_variables_frame (_variables self) stm) as Hf.
  cbn zeta in Hf. destruct Hf as (_ & _ & _ & _ & Hv' & _).
  set (st := for_in (_variables self) load_variable_step stm) in *.
  set (self1 := set_loaded true st.1).
  destruct (reload_conflicted_eq (_conflicted self1)
    (for_in (reverse (_modules self1))
       (λ m w, if decide (m ∈ _preloaded self1) then w
               else rt_unload_module m w)
       (for_in (_variables self1) (unload_variable_step self1) st.2)))
    as [-> _].
  destruct (unload_modules_eq (_preloaded self1) (reverse (_modules self1))
    (for_in (_variables self1) (unload_variable_step self1) st.2))
    as [-> _].
  apply map_eq. intros k. rewrite unload_variables_lookup.
  subst self1. cbn [set_loaded _variables _saved_variables].
  rewrite Hv', Hv. cbn [fst].
  destruct (decide (k ∈ (_variables self).*1)) as [Hin|Hnin].
  - apply list_elem_of_fmap in Hin as ([k' v] & -> & Hin).
    apply list_elem_of_split in Hin as (pre & post & Hsplit).
    destruct (load_variables_at (_variables self) pre k' v post stm Hsplit Hwf)
      as [_ Hsaved].
    fold st in Hsaved. cbn [fst]. rewrite Hsaved, Henv, Hs. cbn [fst snd].
    rewrite Hfresh, lookup_empty. by destruct (environ w !! k').
  - destruct (load_variables_other (_variables self) stm k Hnin) as [He _].
    fold st in He. by rewrite He, Henv.
Qed.

(** C1, as the code has it.  For an environment fresh from its
    constructor, with pairwise distinct declared modules, on a modules
    system that honours the contract: if [load] forces none of the declared
    modules out, then [load] followed by [unload] leaves the process
    environment and the set of loaded modules as they were. *)
Theorem load_unload_round_trip name mods vars self w :
  Environment.__init__ name mods vars = inr self →
  NoDup mods →
  (∀ c, c ∈ _conflicted (load self w).1 → c ∉ mods) →
  environ (load_then_unload self w).2 = environ w
  ∧ loaded_set (load_then_unload self w).2 = loaded_set w.
Proof.
  intros Hinit Hnd Hconf. rewrite init_constructs in Hinit.
  injection Hinit as <-. split.
  - apply load_variables_round_trip; [apply OrderedDict_wf|done].
  - rewrite load_then_unload_eq.
    rewrite unload_loaded_set by by rewrite load_eq.
    rewrite load_eq in *. cbn zeta in *.
    cbn [fst snd set_loaded _modules _preloaded _conflicted] in *.
    set (self := mk name mods (OrderedDict vars) false ∅ [] ∅ []) in *.
    pose proof (load_variables_frame (OrderedDict vars)
                  (for_in mods load_module_step (self, w))) as Hf.
    cbn zeta in Hf.
    destruct Hf as (Hms & _ & _ & Hmods & _ & _ & Hc & Hp & _).
    cbn [_variables self] in *.
    rewrite Hc in Hconf. rewrite Hc, Hp, Hmods.
    unfold loaded_set at 1. rewrite Hms.
    destruct (load_modules_frame mods (self, w)) as (_ & _ & -> & _).
    destruct (load_modules_set mods self w) as (C & HC & Hrest).
    cbn zeta in *. cbn [fst snd _modules _conflicted _preloaded self] in *.
    rewrite HC in Hconf. cbn [app] in Hconf.
    destruct (Hrest Hnd Hconf) as (Hset & Hsub & Hpre).
    unfold loaded_set in Hset at 1. rewrite Hset, Hpre, HC. cbn [app].
    apply set_eq. intros x.
    rewrite !elem_of_union, !elem_of_difference, !elem_of_union,
      !elem_of_difference, !elem_of_intersection, !elem_of_list_to_set.
    specialize (Hsub x). specialize (Hconf x).
    destruct (decide (x ∈ C)); destruct (decide (x ∈ mods));
      destruct (decide (x ∈ loaded_set w)); set_solver.
Qed.

(** C4, as the code has it.  Let loading the declared module [B] force
    [A] out, [A] not being recorded as preloaded.  If moreover [B] is
    neither recorded as preloaded nor in the conflict list of the
    environment when [unload] runs, then after the matching [unload] the
    modules system reports [A] loaded and [B] not loaded. *)
Theorem conflict_restore self w pre B post A :
  _modules self = pre ++ B :: post →
  A ∈ (modules.load_module
         (modules_system (for_in pre load_module_step (self, w)).2)
         B true).1 →
  A ∉ _preloaded (load self w).1 →
  B ∉ _preloaded (load self w).1 →
  B ∉ _conflicted (load self w).1 →
  let w2 := (load_then_unload self w).2 in
  modules.is_module_loaded (modules_system w2) A = true
  ∧ modules.is_module_loaded (modules_system w2) B = false.
Proof.
  intros Hmods HA _ HBp HBc. cbn zeta. rewrite load_then_unload_eq.
  assert (HAc : A ∈ _conflicted (load self w).1).
  { rewrite load_eq. cbn zeta. cbn [fst set_loaded _conflicted].
    pose proof (load_variables_frame (_variables self)
                  (for_in (_modules self) load_module_step (self, w))) as Hf.
    cbn zeta in Hf. destruct Hf as (_ & _ & _ & _ & _ & _ & -> & _).
    rewrite Hmods, for_in_app. cbn [for_in].
    apply load_modules_conflicted_mono.
    destruct (for_in pre load_module_step (self, w)) as [self0 w0].
    rewrite load_module_step_eq. cbn zeta. cbn [fst snd _conflicted] in *.
    apply elem_of_app. by right. }
  assert (HBm : B ∈ _modules (load self w).1).
  { rewrite load_eq. cbn zeta. cbn [fst set_loaded _modules].
    pose proof (load_variables_frame (_variables self)
                  (for_in (_modules self) load_module_step (self, w))) as Hf.
    cbn zeta in Hf. destruct Hf as (_ & _ & _ & -> & _).
    destruct (load_modules_frame (_modules self) (self, w)) as (_ & _ & -> & _).
    cbn [fst]. rewrite Hmods. apply elem_of_app. right. by left. }
  pose proof (unload_loaded_set (load self w).1 (load self w).2) as Hset.
  rewrite load_eq in Hset at 1. specialize (Hset eq_refl).
  set (w2 := (unload (load self w).1 (load self w).2).2) in *.
  split.
  - apply contract_query. 
    apply (elem_of_list_to_set (C:=gset string)). fold (loaded_set w2).
    rewrite Hset. set_solver.
  - apply not_true_iff_false. intros Hl. apply contract_query in Hl.
    apply (elem_of_list_to_set (C:=gset string)) in Hl.
    fold (loaded_set w2) in Hl. rewrite Hset in Hl. set_solver.
Qed.
End contract.

(** ** The reference modules system

    It honours the contract. *)
#[global] Instance simple_modules_contract : ModulesContract simple_modules.t.
Proof.
  split.
  - intros s m. simpl. unfold simple_modules.is_module_loaded.
    apply bool_decide_eq_true.
  - intros s m. simpl. apply set_eq. intros x.
    rewrite elem_of_difference, !elem_of_list_to_set, list_elem_of_In,
      filter_In, <- list_elem_of_In, bool_decide_eq_true, elem_of_singleton.
    done.
  - intros s m force. simpl. unfold simple_modules.load_module,
      simple_modules.is_module_loaded.
    destruct (bool_decide (m ∈ simple_modules.loaded s)) eqn:Hl; cbn [fst snd].
    + apply bool_decide_eq_true in Hl. set_solver.
    + cbn [simple_modules.loaded]. apply set_eq. intros x.
      rewrite elem_of_union, elem_of_difference, !elem_of_list_to_set,
        elem_of_app, list_elem_of_In, filter_In, <- list_elem_of_In,
        bool_decide_eq_true, list_elem_of_singleton, elem_of_singleton.
      done.
  - intros s m c force. simpl. unfold simple_modules.load_module.
    destruct (simple_modules.is_module_loaded s m); cbn [fst].
    + by intros ?%elem_of_nil.
    + destruct force; [|by intros ?%elem_of_nil].
      rewrite list_elem_of_In, filter_In, <- list_elem_of_In. tauto.
  - intros s m. simpl. unfold simple_modules.load_module.
    by destruct (simple_modules.is_module_loaded s m).
Qed.

(** C1, as stated, fails on the reference modules system, which honours
    the contract, in three ways.  An environment that lists module [m]
    twice takes its own first load for a preload and leaves [m] loaded.  An
    environment whose modules [A] and [B] conflict reloads [A] at the end
    of [unload].  An environment that went through an earlier cycle under
    [X=old] still holds that saved value, and its next cycle, started with
    [X] unset, ends with [X=old]. *)
Lemma round_trip_counterexample :
  ModulesContract simple_modules.t
  ∧ (Environment.__init__ "twice" ["m"; "m"] [] = inr scenarios.env_twice
     ∧ loaded_set
         (Environment.load_then_unload
            scenarios.env_twice scenarios.no_conflicts).2
       ≠ loaded_set scenarios.no_conflicts)
  ∧ (Environment.__init__ "rivals" ["A"; "B"] [] = inr scenarios.env_rivals
     ∧ loaded_set
         (Environment.load_then_unload
            scenarios.env_rivals scenarios.ab_conflict).2
       ≠ loaded_set scenarios.ab_conflict)
  ∧ environ
      (Environment.load_then_unload
         scenarios.env_x_used scenarios.no_conflicts).2
    ≠ environ scenarios.no_conflicts.
Proof.
  split; [apply simple_modules_contract|]. split; [|split].
  - split; [reflexivity|]. intros Heq.
    assert (Hin : "m" ∈ loaded_set scenarios.no_conflicts).
    { rewrite <- Heq. by vm_compute. }
    vm_compute in Hin. discriminate.
  - split; [reflexivity|]. intros Heq.
    assert (Hin : "A" ∈ loaded_set scenarios.ab_conflict).
    { rewrite <- Heq. by vm_compute. }
    vm_compute in Hin. discriminate.
  - intros Heq. apply (f_equal (λ env, env !! "X")) in Heq.
    vm_compute in Heq. discriminate.
Qed.

(** C4, as stated, fails on the reference modules system, which honours
    the contract, in two ways.  With the declared modules [B] and [C],
    loading [B] forces [A] out and loading [C] forces [B] out; [unload]
    reloads both [A] and [B].  With [B] declared twice, the second turn of
    the loop records [B] as preloaded and [unload] never unloads it.  In
    both cases [A] was not preloaded and [B] is still loaded afterwards. *)
Lemma conflict_restore_counterexample :
  ModulesContract simple_modules.t
  ∧ (Environment._modules scenarios.env_bc = [] ++ "B" :: ["C"]
     ∧ "A" ∈ fst (modules.load_module
                    (modules_system scenarios.chain_conflict) "B" true)
     ∧ ("A" ∉ Environment._preloaded
                (Environment.load scenarios.env_bc scenarios.chain_conflict).1)
     ∧ modules.is_module_loaded
         (modules_system
            (Environment.load_then_unload
               scenarios.env_bc scenarios.chain_conflict).2) "B" = true)
  ∧ (Environment._modules scenarios.env_bb = [] ++ "B" :: ["B"]
     ∧ "A" ∈ fst (modules.load_module
                    (modules_system scenarios.a_loaded) "B" true)
     ∧ ("A" ∉ Environment._preloaded
                (Environment.load scenarios.env_bb scenarios.a_loaded).1)
     ∧ modules.is_module_loaded
         (modules_system
            (Environment.load_then_unload
               scenarios.env_bb scenarios.a_loaded).2) "B" = true).
Proof.
  split; [apply simple_modules_contract|]. split.
  - split; [reflexivity|]. split; [vm_compute; constructor|].
    split; [|by vm_compute].
    intros Hin. vm_compute in Hin. discriminate.
  - split; [reflexivity|]. split; [vm_compute; constructor|].
    split; [|by vm_compute].
    intros Hin. vm_compute in Hin. discriminate.
Qed.

(** ** Instances on the reference modules system *)

(** The modules [foo] and [bar] in either order, the same variables in the
    same order. *)
Lemma eq_compares_variables_in_order_witness :
  Environment.__eq__ scenarios.env_foo_bar scenarios.env_bar_foo = true.
Proof.
  assert (Hwf : odict_wf [("A", "1"); ("B", "2")]).
  { unfold odict_wf. simpl. apply NoDup_cons. split; [|apply NoDup_singleton].
    intros Hin. apply list_elem_of_singleton in Hin. discriminate. }
  apply (eq_compares_variables_in_order
           scenarios.env_foo_bar scenarios.env_bar_foo Hwf Hwf).
  split; [reflexivity|]. split; [by vm_compute|reflexivity].
Defined.

(** [env_b] under [a_loaded]: loading [B] forces [A] out, [CC] is shadowed;
    the round trip restores [CC=cc] and the loaded set [{A}]. *)
Lemma load_unload_round_trip_witness :
  environ (Environment.load_then_unload scenarios.env_b scenarios.a_loaded).2
  = environ scenarios.a_loaded
  ∧ loaded_set
      (Environment.load_then_unload scenarios.env_b scenarios.a_loaded).2
    = loaded_set scenarios.a_loaded.
Proof.
  apply (load_unload_round_trip "b" ["B"]
           [("PREFIX", "/opt"); ("CC", "$PREFIX/bin/gcc")]).
  - reflexivity.
  - apply NoDup_singleton.
  - intros c Hc. vm_compute in Hc.
    apply list_elem_of_singleton in Hc as ->.
    intros Hin. apply list_elem_of_singleton in Hin. discriminate.
Defined.

Lemma conflict_restore_witness :
  modules.is_module_loaded
    (modules_system
       (Environment.load_then_unload scenarios.env_b scenarios.a_loaded).2)
    "A" = true
  ∧ modules.is_module_loaded
      (modules_system
         (Environment.load_then_unload scenarios.env_b scenarios.a_loaded).2)
      "B" = false.
Proof.
  apply (conflict_restore scenarios.env_b scenarios.a_loaded [] "B" [] "A").
  - reflexivity.
  - vm_compute. constructor.
  - intros Hin. vm_compute in Hin. discriminate.
  - intros Hin. vm_compute in Hin. discriminate.
  - intros Hin. vm_compute in Hin.
    apply list_elem_of_singleton in Hin. discriminate.
Defined.

(** [CC] is declared after [PREFIX] and refers to it. *)
Lemma load_shadows_unload_restores_witness :
  environ (Environment.load scenarios.env_b scenarios.a_loaded).2 !! "CC"
  = Some "/opt/bin/gcc"
  ∧ environ
      (Environment.load_then_unload scenarios.env_b scenarios.a_loaded).2
    !! "CC" = Some "cc".
Proof.
  assert (Hwf : odict_wf (Environment._variables scenarios.env_b)).
  { unfold odict_wf. simpl. apply NoDup_cons. split; [|apply NoDup_singleton].
    intros Hin. apply list_elem_of_singleton in Hin. discriminate. }
  pose proof (load_shadows_unload_restores scenarios.env_b scenarios.a_loaded
                [("PREFIX", "/opt")] "CC" "$PREFIX/bin/gcc" [] "cc"
                eq_refl Hwf eq_refl) as H.
  vm_compute in H. vm_compute. exact H.
Defined.

(** [B] is loaded before [env_b] is. *)
Lemma preloaded_never_unloaded_witness :
  ∃ issued,
    requests
      (Environment.unload
         (Environment.load scenarios.env_b scenarios.b_loaded).1
         (Environment.load scenarios.env_b scenarios.b_loaded).2).2
    = requests (Environment.load scenarios.env_b scenarios.b_loaded).2
      ++ issued
    ∧ ReqUnload "B" ∉ issued.
Proof.
  apply (preloaded_never_unloaded scenarios.env_b scenarios.b_loaded
           [] "B" []).
  - reflexivity.
  - reflexivity.
Defined.

(** The first scenario of the specification: [CC] unset and the module not
    loaded; [load] sets [CC=gcc] and loads the module, [unload] undoes
    both. *)
Example gcc_env_scenario :
  let st1 := Environment.load scenarios.gcc_env scenarios.no_conflicts in
  let st2 :=
    Environment.load_then_unload scenarios.gcc_env scenarios.no_conflicts in
  environ st1.2 !! "CC" = Some "gcc"
  ∧ modules.loaded_modules (modules_system st1.2) = ["gcc/7.3.0"]
  ∧ Environment.is_loaded st1.1 st1.2 = true
  ∧ environ st2.2 !! "CC" = None
  ∧ modules.loaded_modules (modules_system st2.2) = []
  ∧ requests st2.2 = [ReqLoad "gcc/7.3.0" true; ReqUnload "gcc/7.3.0"].
Proof. by vm_compute. Qed.

(** * Further properties *)

(** ** Text expansion *)

Lemma span_word_app (s : list ascii) :
  (span_word s).1 ++ (span_word s).2 = s.
Proof.
  induction s as [|c s IH]; simpl; [done|].
  destruct (is_word_char c); [|done].
  destruct (span_word s) as [w r]. simpl in *. by rewrite IH.
Qed.

Lemma until_brace_app (s w r : list ascii) :
  until_brace s = Some (w, r) → s = w ++ ascii_of_nat 125 :: r.
Proof.
  revert w r. induction s as [|c s IH]; intros w r; simpl; [done|].
  destruct (nat_of_ascii c =? 125)%nat eqn:Hc.
  - intros [= <- <-]. apply Nat.eqb_eq in Hc.
    rewrite <- Hc, ascii_nat_embedding. done.
  - destruct (until_brace s) as [[w' r']|]; [|done].
    intros [= <- <-]. simpl. f_equal. by apply IH.
Qed.

Lemma match_var_app (s name raw tail : list ascii) :
  match_var s = Some (name, raw, tail) → raw ++ tail = s.
Proof.
  destruct s as [|c s]; [done|]. unfold match_var.
  destruct (nat_of_ascii c =? 123)%nat.
  - destruct (until_brace s) as [[n r]|] eqn:Hb; [|done].
    intros [= <- <- <-]. apply until_brace_app in Hb. rewrite Hb.
    simpl. by rewrite <- app_assoc.
  - pose proof (span_word_app (c :: s)) as Happ.
    destruct (span_word (c :: s)) as [[|w0 w] r]; [done|].
    intros [= <- <- <-]. exact Happ.
Qed.

Lemma expand_empty (fuel : nat) (s : list ascii) : expand fuel ∅ s = s.
Proof.
  revert s. induction fuel as [|fuel IH]; intros s; [done|].
  destruct s as [|c rest]; [done|]. cbn [expand].
  destruct (nat_of_ascii c =? 36)%nat; [|by rewrite IH].
  destruct (match_var rest) as [[[name raw] tail]|] eqn:Hm; [|by rewrite IH].
  rewrite lookup_empty, IH. f_equal. by eapply match_var_app.
Qed.

(** X2.  With no variable set at all, [expandvars] returns its argument: a
    reference to an unset variable is left as it is written. *)
Theorem expandvars_empty_environ (path : string) : expandvars ∅ path = path.
Proof.
  unfold expandvars. rewrite expand_empty.
  apply string_of_list_ascii_of_string.
Qed.

Lemma expand_no_dollar (env : gmap string string) (fuel : nat)
    (s : list ascii) :
  forallb (λ c, negb (nat_of_ascii c =? 36)%nat) s = true →
  expand fuel env s = s.
Proof.
  revert s. induction fuel as [|fuel IH]; intros s Hs; [done|].
  destruct s as [|c rest]; [done|]. cbn [expand].
  simpl in Hs. apply andb_true_iff in Hs as [Hc Hrest].
  apply negb_true_iff in Hc. rewrite Hc. by rewrite IH.
Qed.

(** A text without [$] is returned as it is. *)
Lemma expandvars_no_dollar (env : gmap string string) (path : string) :
  forallb (λ c, negb (nat_of_ascii c =? 36)%nat) (list_ascii_of_string path)
  = true →
  expandvars env path = path.
Proof.
  intros Hs. unfold expandvars. rewrite expand_no_dollar by done.
  apply string_of_list_ascii_of_string.
Qed.

Lemma expand_literal_prefix (env : gmap string string) (p s : list ascii) :
  forallb (λ c, negb (nat_of_ascii c =? 36)%nat) p = true →
  expand (length (p ++ s)) env (p ++ s) = p ++ expand (length s) env s.
Proof.
  induction p as [|c p IH]; intros Hp; [done|].
  simpl in Hp. apply andb_true_iff in Hp as [Hc Hp].
  apply negb_true_iff in Hc. simpl. rewrite Hc. f_equal. by apply IH.
Qed.

Lemma list_ascii_of_string_app (s1 s2 : string) :
  list_ascii_of_string (s1 +:+ s2)
  = list_ascii_of_string s1 ++ list_ascii_of_string s2.
Proof. induction s1 as [|c s1 IH]; simpl; [done|]. by rewrite IH. Qed.

Lemma string_of_list_ascii_app (l1 l2 : list ascii) :
  string_of_list_ascii (l1 ++ l2)
  = string_of_list_ascii l1 +:+ string_of_list_ascii l2.
Proof. induction l1 as [|c l1 IH]; simpl; [done|]. by rewrite IH. Qed.

(** Text before the first [$] is copied. *)
Lemma expandvars_literal_prefix (env : gmap string string)
    (prefix rest : string) :
  forallb (λ c, negb (nat_of_ascii c =? 36)%nat) (list_ascii_of_string prefix)
  = true →
  expandvars env (prefix +:+ rest) = prefix +:+ expandvars env rest.
Proof.
  intros Hp. unfold expandvars. cbn zeta.
  rewrite list_ascii_of_string_app, expand_literal_prefix by done.
  by rewrite string_of_list_ascii_app, string_of_list_ascii_of_string.
Qed.

Lemma span_word_all (s : list ascii) :
  forallb is_word_char s = true → span_word s = (s, []).
Proof.
  induction s as [|c s IH]; simpl; [done|].
  intros [Hc Hs]%andb_true_iff. by rewrite Hc, IH.
Qed.









(** ** Construction of ordered dictionaries *)

Lemma odict_setitem_mapping k v od :
  odict_mapping (odict_setitem k v od) = <[k := v]> (odict_mapping od).
Proof.
  unfold odict_mapping.
  induction od as [|[k' v'] od IH]; [done|]. cbn [odict_setitem].
  destruct (decide (k = k')) as [->|Hne]; cbn [list_to_map foldr uncurry].
  - simpl. by rewrite insert_insert_eq.
  - simpl. rewrite IH. by apply insert_insert_ne.
Qed.

Lemma for_in_setitem_mapping items od :
  odict_mapping (for_in items (λ '(k, v) od, odict_setitem k v od) od)
  = list_to_map (reverse items) ∪ odict_mapping od.
Proof.
  revert od. induction items as [|[k v] items IH]; intros od; cbn [for_in].
  - simpl. by rewrite (left_id ∅ (∪)).
  - rewrite IH, odict_setitem_mapping, reverse_cons.
    apply map_eq. intros i.
    rewrite !lookup_union.
    rewrite list_to_map_app. rewrite lookup_union. simpl.
    destruct (decide (i = k)) as [->|Hne].
    + rewrite !lookup_insert_eq.
      by destruct (list_to_map (reverse items) !! k), (odict_mapping od !! k).
    + rewrite !lookup_insert_ne by done. rewrite lookup_empty.
      by destruct (list_to_map (reverse items) !! i), (odict_mapping od !! i).
Qed.

(** X3.  [OrderedDict(items)] has each key once and maps it to the value of its
    last occurrence in [items]. *)
Theorem OrderedDict_last_wins items :
  odict_wf (OrderedDict items)
  ∧ odict_mapping (OrderedDict items) = list_to_map (reverse items).
Proof.
  split; [apply OrderedDict_wf|].
  unfold OrderedDict. rewrite for_in_setitem_mapping.
  unfold odict_mapping. simpl. by rewrite (right_id ∅ (∪)).
Qed.

Lemma odict_setitem_fresh k v od :
  k ∉ od.*1 → odict_setitem k v od = od ++ [(k, v)].
Proof.
  induction od as [|[k' v'] od IH]; [done|]. cbn [odict_setitem].
  rewrite fmap_cons, not_elem_of_cons. cbn [fst]. intros [Hne Hk].
  rewrite decide_False by done. by rewrite IH.
Qed.

Lemma for_in_setitem_fresh items od :
  odict_wf (od ++ items) →
  for_in items (λ '(k, v) od, odict_setitem k v od) od = od ++ items.
Proof.
  unfold odict_wf.
  revert od. induction items as [|[k v] items IH]; intros od Hwf; cbn [for_in].
  - by rewrite app_nil_r.
  - rewrite odict_setitem_fresh.
    + rewrite IH; rewrite <- app_assoc; done.
    + rewrite fmap_app, fmap_cons in Hwf. cbn [fst] in Hwf.
      apply NoDup_app in Hwf as (_ & Hdisj & _).
      intros Hin. apply (Hdisj _ Hin). by left.
Qed.

(** X4.  Building an ordered dictionary from items whose keys are distinct keeps
    the items and their order. *)
Theorem OrderedDict_of_distinct items :
  odict_wf items → OrderedDict items = items.
Proof. intros Hwf. unfold OrderedDict. by rewrite for_in_setitem_fresh. Qed.

Lemma OrderedDict_of_distinct_witness :
  OrderedDict [("OMP_PLACES", "threads"); ("OMP_PROC_BIND", "spread")]
  = [("OMP_PLACES", "threads"); ("OMP_PROC_BIND", "spread")].
Proof.
  apply OrderedDict_of_distinct.
  unfold odict_wf. simpl. apply NoDup_cons. split; [|apply NoDup_singleton].
  intros Hin. apply list_elem_of_singleton in Hin. discriminate.
Defined.

(** ** Requests, frames and the log *)

Section more_props.
Context {MS : Type} `{!modules.ModulesSystem MS}.
Import Environment.
Implicit Types (self : Environment.t) (w : Ambient MS).
Implicit Types (st : Environment.t * Ambient MS).

Lemma load_modules_requests ms st :
  requests (for_in ms load_module_step st).2
  = requests st.2 ++ map (λ m, ReqLoad m true) ms.
Proof.
  revert st. induction ms as [|m ms IH]; intros [self w]; cbn [for_in].
  - by rewrite app_nil_r.
  - rewrite IH, load_module_step_eq. cbn zeta. cbn [snd requests map].
    by rewrite <- app_assoc.
Qed.

(** X5.  [load] asks the modules system for one forced load per declared
    module, in declared order, and for nothing else. *)
Theorem load_requests self w :
  requests (load self w).2
  = requests w ++ map (λ m, ReqLoad m true) (_modules self).
Proof.
  rewrite load_eq. cbn zeta. cbn [snd].
  destruct (load_variables_frame (_variables self)
              (for_in (_modules self) load_module_step (self, w)))
    as (_ & -> & _).
  by rewrite load_modules_requests.
Qed.

(** X6.  [unload] on an environment that is not loaded asks for nothing; on a
    loaded one it asks for the unload of the declared modules that are not
    recorded as preloaded, in reverse declared order, then for a load
    without force of every module of the conflict list, in order. *)
Theorem unload_requests self w :
  requests (unload self w).2
  = requests w
    ++ (if _loaded self
        then map ReqUnload
               (filter (λ m, m ∉ _preloaded self) (reverse (_modules self)))
             ++ map (λ c, ReqLoad c false) (_conflicted self)
        else []).
Proof.
  destruct (_loaded self) eqn:Hl.
  - rewrite unload_eq by done. cbn [snd].
    match goal with
    | |- context [for_in (_conflicted self) _ ?w0] =>
        destruct (reload_conflicted_eq (_conflicted self) w0) as [_ ->]
    end.
    match goal with
    | |- context [for_in (reverse (_modules self)) _ ?w0] =>
        destruct (unload_modules_eq (_preloaded self)
                    (reverse (_modules self)) w0) as [_ ->]
    end.
    destruct (unload_variables_frame self (_variables self) w) as [_ ->].
    by rewrite <- app_assoc.
  - unfold unload. rewrite Hl. simpl. by rewrite app_nil_r.
Qed.

(** X7.  A second [unload] changes nothing: neither the environment nor the
    ambient state, and it makes no request. *)
Theorem unload_idempotent self w :
  unload (unload self w).1 (unload self w).2 = unload self w.
Proof.
  destruct (_loaded self) eqn:Hl.
  - rewrite (unload_eq self w) by done. cbn [fst snd].
    unfold unload at 1. by cbn [set_loaded _loaded negb].
  - unfold unload. rewrite Hl. cbn [negb fst snd]. by rewrite Hl.
Qed.

(** X8.  [load] and [unload] leave alone every variable the environment does not
    declare. *)
Theorem undeclared_variables_untouched self w k :
  k ∉ (_variables self).*1 →
  environ (load self w).2 !! k = environ w !! k
  ∧ environ (unload self w).2 !! k = environ w !! k.
Proof.
  intros Hk. split.
  - rewrite load_eq. cbn zeta. cbn [snd].
    destruct (load_variables_other (_variables self)
                (for_in (_modules self) load_module_step (self, w)) k Hk)
      as [-> _].
    by destruct (load_modules_frame (_modules self) (self, w)) as (-> & _).
  - destruct (_loaded self) eqn:Hl.
    + rewrite unload_eq by done. cbn [snd].
      match goal with
      | |- context [for_in (_conflicted self) _ ?w0] =>
          destruct (reload_conflicted_eq (_conflicted self) w0) as [-> _]
      end.
      match goal with
      | |- context [for_in (reverse (_modules self)) _ ?w0] =>
          destruct (unload_modules_eq (_preloaded self)
                      (reverse (_modules self)) w0) as [-> _]
      end.
      rewrite unload_variables_lookup. by rewrite decide_False.
    + unfold unload. by rewrite Hl.
Qed.

Lemma load_declaration self w :
  _name (load self w).1 = _name self
  ∧ _modules (load self w).1 = _modules self
  ∧ _variables (load self w).1 = _variables self
  ∧ _loaded (load self w).1 = true.
Proof.
  rewrite load_eq. cbn zeta.
  cbn [fst set_loaded _name _modules _variables _loaded].
  destruct (load_variables_frame (_variables self)
              (for_in (_modules self) load_module_step (self, w)))
    as (_ & _ & -> & -> & -> & _).
  destruct (load_modules_frame (_modules self) (self, w))
    as (_ & -> & -> & -> & _).
  done.
Qed.

Lemma unload_declaration self w :
  _name (unload self w).1 = _name self
  ∧ _modules (unload self w).1 = _modules self
  ∧ _variables (unload self w).1 = _variables self
  ∧ _loaded (unload self w).1 = false
  ∧ _saved_variables (unload self w).1 = _saved_variables self
  ∧ _conflicted (unload self w).1 = _conflicted self
  ∧ _preloaded (unload self w).1 = _preloaded self
  ∧ _module_ops (unload self w).1 = _module_ops self.
Proof.
  destruct (_loaded self) eqn:Hl.
  - by rewrite unload_eq by done.
  - unfold unload. rewrite Hl. by cbn [negb fst].
Qed.

(** X9.  [load] and [unload] never change what the environment declares: its
    name, its modules and its variables.  [load] raises the flag and
    [unload] lowers it, keeping all the bookkeeping of the last [load]. *)
Theorem activation_keeps_declaration self w :
  (_name (load self w).1 = _name self
   ∧ _modules (load self w).1 = _modules self
   ∧ _variables (load self w).1 = _variables self
   ∧ _loaded (load self w).1 = true)
  ∧ (_name (unload self w).1 = _name self
     ∧ _modules (unload self w).1 = _modules self
     ∧ _variables (unload self w).1 = _variables self
     ∧ _loaded (unload self w).1 = false
     ∧ _saved_variables (unload self w).1 = _saved_variables self
     ∧ _conflicted (unload self w).1 = _conflicted self
     ∧ _preloaded (unload self w).1 = _preloaded self
     ∧ _module_ops (unload self w).1 = _module_ops self).
Proof. split; [apply load_declaration|apply unload_declaration]. Qed.

(** *** The log of module operations *)

Lemma load_modules_log ms st :
  let st' := for_in ms load_module_step st in
  ∃ C,
    _conflicted st'.1 = _conflicted st.1 ++ C
    ∧ (filter (λ e, e.1 = op_u) (_module_ops st'.1)).*2
      = (filter (λ e, e.1 = op_u) (_module_ops st.1)).*2 ++ C
    ∧ (filter (λ e, e.1 = op_l) (_module_ops st'.1)).*2
      = (filter (λ e, e.1 = op_l) (_module_ops st.1)).*2 ++ ms.
Proof.
  revert st. induction ms as [|m ms IH]; intros [self w]; cbn [for_in].
  - exists []. cbn zeta. by rewrite !app_nil_r.
  - rewrite load_module_step_eq. cbn zeta.
    set (us := (modules.load_module (modules_system w) m true).1).
    match goal with
    | |- context [for_in ms load_module_step ?s] =>
        destruct (IH s) as (C & HC & Hu & Hl)
    end.
    cbn zeta in *. cbn [fst _conflicted _module_ops] in *.
    assert (Hfu : ∀ cs : list string,
      filter (λ e : ModuleOp * string, e.1 = op_u) (map (λ c, (op_u, c)) cs)
      = map (λ c, (op_u, c)) cs).
    { induction cs as [|c cs IHc]; [done|]. simpl.
      rewrite filter_cons_True by done. by rewrite IHc. }
    assert (Hfl : ∀ cs : list string,
      filter (λ e : ModuleOp * string, e.1 = op_l) (map (λ c, (op_u, c)) cs)
      = []).
    { induction cs as [|c cs IHc]; [done|]. simpl.
      by rewrite filter_cons_False by done. }
    exists (us ++ C). split; [by rewrite HC, app_assoc|]. split.
    + rewrite Hu, !filter_app, Hfu, !fmap_app.
      rewrite filter_cons_False, filter_nil by done.
      rewrite <- list_fmap_compose. simpl.
      rewrite list_fmap_id, app_nil_r. by rewrite <- app_assoc.
    + rewrite Hl, !filter_app, Hfl, !fmap_app.
      rewrite filter_cons_True, filter_nil by done. simpl.
      by rewrite <- app_assoc.
Qed.

(** X10.  [load] keeps the log in step with the conflict list: if the modules
    logged as unloaded are the conflict list before, they are after; and
    the modules logged as loaded grow by the declared modules, in order. *)
Theorem load_log_matches_conflicts self w :
  (filter (λ e, e.1 = op_u) (_module_ops self)).*2 = _conflicted self →
  (filter (λ e, e.1 = op_u) (_module_ops (load self w).1)).*2
  = _conflicted (load self w).1
  ∧ (filter (λ e, e.1 = op_l) (_module_ops (load self w).1)).*2
    = (filter (λ e, e.1 = op_l) (_module_ops self)).*2 ++ _modules self.
Proof.
  intros Hinv. rewrite load_eq. cbn zeta.
  cbn [fst set_loaded _module_ops _conflicted].
  destruct (load_variables_frame (_variables self)
              (for_in (_modules self) load_module_step (self, w)))
    as (_ & _ & _ & _ & _ & _ & -> & _ & ->).
  destruct (load_modules_log (_modules self) (self, w)) as (C & -> & -> & ->).
  cbn [fst]. by rewrite Hinv.
Qed.

End more_props.

Lemma load_log_matches_conflicts_witness :
  (filter (λ e, e.1 = Environment.op_u)
     (Environment._module_ops
        (Environment.load scenarios.env_bc scenarios.chain_conflict).1)).*2
  = Environment._conflicted
      (Environment.load scenarios.env_bc scenarios.chain_conflict).1
  ∧ (filter (λ e, e.1 = Environment.op_l)
       (Environment._module_ops
          (Environment.load scenarios.env_bc scenarios.chain_conflict).1)).*2
    = (filter (λ e, e.1 = Environment.op_l)
         (Environment._module_ops scenarios.env_bc)).*2
      ++ Environment._modules scenarios.env_bc.
Proof. apply load_log_matches_conflicts. reflexivity. Defined.

Lemma undeclared_variables_untouched_witness :
  environ (Environment.load scenarios.env_b scenarios.x_old).2 !! "X"
  = environ scenarios.x_old !! "X"
  ∧ environ (Environment.unload scenarios.env_b scenarios.x_old).2 !! "X"
    = environ scenarios.x_old !! "X".
Proof.
  apply undeclared_variables_untouched.
  intros Hin. simpl in Hin.
  apply elem_of_cons in Hin as [Hin|Hin]; [discriminate|].
  apply list_elem_of_singleton in Hin. discriminate.
Defined.

(** ** Emission and activation *)

Section emit_props.
Context {MS : Type} `{!modules.ModulesSystem MS}.
Import Environment.
Implicit Types (self : Environment.t) (w : Ambient MS).
Implicit Types (st : Environment.t * Ambient MS).

(** X11.  [emit_load_commands] returns the module commands first: the log of
    module operations replayed in order, each entry with the command of its
    own kind, or, when the log is empty, the load commands of the declared
    modules in declared order; then one [export NAME=value] per declared
    variable, in declared order and with the value as declared. *)
Theorem emit_load_commands_spec self w :
  emit_load_commands self w
  = match _module_ops self with
    | [] =>
        concat (map (modules.emit_load_commands (modules_system w))
                  (_modules self))
    | ops =>
        concat
          (map (λ '(op, m),
                  match op with
                  | op_l => modules.emit_load_commands (modules_system w) m
                  | op_u => modules.emit_unload_commands (modules_system w) m
                  end)
               ops)
    end
    ++ map (λ '(k, v), "export " +:+ k +:+ "=" +:+ v) (_variables self).
Proof.
  unfold emit_load_commands.
  set (g := λ '(op, m),
              match op with
              | op_l => modules.emit_load_commands (modules_system w) m
              | op_u => modules.emit_unload_commands (modules_system w) m
              end).
  rewrite (for_in_extend (_variables self) _
             (λ '(k, v), ["export " +:+ k +:+ "=" +:+ v]))
    by (by intros [k v] ret).
  assert (Hexp : concat (map (λ '(k, v), ["export " +:+ k +:+ "=" +:+ v])
                          (_variables self))
                 = map (λ '(k, v), "export " +:+ k +:+ "=" +:+ v)
                     (_variables self)).
  { induction (_variables self) as [|[k v] vars IH]; simpl; [done|].
    by rewrite IH. }
  rewrite Hexp. f_equal.
  destruct (_module_ops self) as [|o ops] eqn:Hops.
  - rewrite (for_in_extend _ _ g) by (by intros [[] m] ret).
    simpl. by rewrite map_map.
  - by rewrite (for_in_extend _ _ g) by (by intros [[] m] ret).
Qed.

(** X12.  With an empty log, both emitters answer as they would for the log that
    loads every declared module in order and unloads nothing. *)
Theorem emit_fallback_is_plain_log self w :
  _module_ops self = [] →
  let logged := set_module_ops (map (λ m, (op_l, m)) (_modules self)) self in
  emit_load_commands self w = emit_load_commands logged w
  ∧ emit_unload_commands self w = emit_unload_commands logged w.
Proof.
  intros Hops. cbn zeta.
  unfold emit_load_commands, emit_unload_commands.
  cbn [set_module_ops _module_ops _modules _variables]. rewrite Hops.
  destruct (_modules self) as [|m ms]; [done|]. split; [done|].
  cbn [map]. f_equal.
  change ((op_l, m) :: map (λ m0, (op_l, m0)) ms)
    with (map (λ m0, (op_l, m0)) (m :: ms)).
  generalize (m :: ms). intros l.
  induction l as [|x l IH]; [done|].
  cbn [map]. by rewrite !reverse_cons, map_app, IH.
Qed.
End emit_props.

Lemma emit_fallback_is_plain_log_witness :
  Environment.emit_load_commands scenarios.env_bc scenarios.chain_conflict
  = Environment.emit_load_commands
      (Environment.set_module_ops
         (map (λ m, (Environment.op_l, m))
            (Environment._modules scenarios.env_bc)) scenarios.env_bc)
      scenarios.chain_conflict
  ∧ Environment.emit_unload_commands scenarios.env_bc scenarios.chain_conflict
    = Environment.emit_unload_commands
        (Environment.set_module_ops
           (map (λ m, (Environment.op_l, m))
              (Environment._modules scenarios.env_bc)) scenarios.env_bc)
        scenarios.chain_conflict.
Proof.
  apply (emit_fallback_is_plain_log scenarios.env_bc scenarios.chain_conflict).
  reflexivity.
Defined.

Section contract_props.
Context {MS : Type} `{!modules.ModulesSystem MS} `{!ModulesContract MS}.
Import Environment.
Implicit Types (self : Environment.t) (w : Ambient MS).
Implicit Types (st : Environment.t * Ambient MS).

Lemma load_modules_keeps ms st x :
  x ∈ loaded_set st.2 →
  x ∉ _conflicted (for_in ms load_module_step st).1 →
  x ∈ loaded_set (for_in ms load_module_step st).2.
Proof.
  revert st. induction ms as [|m ms IH]; intros [self w]; cbn [for_in];
    [done|].
  intros Hin Hnot. apply IH; [|done].
  rewrite load_module_step_eq. cbn zeta. unfold loaded_set in *.
  cbn [snd modules_system] in *.
  rewrite contract_load.
  destruct (decide (x ∈ (modules.load_module (modules_system w) m true).1))
    as [Hx|Hx]; [|set_solver].
  exfalso. apply Hnot. apply load_modules_conflicted_mono.
  rewrite load_module_step_eq. cbn zeta. cbn [fst _conflicted].
  apply elem_of_app. by right.
Qed.

Lemma load_modules_loaded ms st m :
  m ∈ ms →
  m ∉ _conflicted (for_in ms load_module_step st).1 →
  m ∈ loaded_set (for_in ms load_module_step st).2.
Proof.
  revert st. induction ms as [|m' ms IH]; intros [self w]; cbn [for_in].
  - by intros ?%elem_of_nil.
  - intros Hin Hnot.
    destruct (decide (m ∈ ms)) as [Hms|Hms]; [by apply IH|].
    apply elem_of_cons in Hin as [->|Hin]; [|done].
    apply load_modules_keeps; [|done].
    rewrite load_module_step_eq. cbn zeta. unfold loaded_set.
    cbn [snd modules_system]. rewrite contract_load. set_solver.
Qed.

(** X13.  On a modules system that honours the contract, when the declared
    values hold no [$], and [load] forced none of the declared modules
    out, [is_loaded] is true right after [load]. *)
Theorem load_establishes_is_loaded self w :
  odict_wf (_variables self) →
  (∀ k v, (k, v) ∈ _variables self →
     forallb (λ c, negb (nat_of_ascii c =? 36)%nat) (list_ascii_of_string v)
     = true) →
  (∀ c, c ∈ _conflicted (load self w).1 → c ∉ _modules self) →
  is_loaded (load self w).1 (load self w).2 = true.
Proof.
  intros Hwf Hlit Hconf. apply is_loaded_spec.
  destruct (load_declaration self w) as (_ & Hm & Hv & _).
  rewrite Hm, Hv. rewrite load_eq in *. cbn zeta in *.
  cbn [fst snd set_loaded _conflicted] in *.
  pose proof (load_variables_frame (_variables self)
                (for_in (_modules self) load_module_step (self, w))) as Hf.
  cbn zeta in Hf. destruct Hf as (Hms & _ & _ & _ & _ & _ & Hc & _).
  split.
  - intros m Hin. apply contract_query. rewrite Hms.
    apply (elem_of_list_to_set (C:=gset string)).
    apply (load_modules_loaded (_modules self) (self, w) m Hin).
    rewrite <- Hc. intros Hin'. by apply (Hconf m).
  - intros k v Hin. pose proof (Hlit k v Hin) as Hv'.
    rewrite (expandvars_no_dollar _ v) by done.
    apply list_elem_of_split in Hin as (pre & post & Hsplit).
    destruct (load_variables_at (_variables self) pre k v post
                (for_in (_modules self) load_module_step (self, w))
                Hsplit Hwf) as [-> _].
    by rewrite expandvars_no_dollar.
Qed.
End contract_props.

Lemma load_establishes_is_loaded_witness :
  Environment.is_loaded
    (Environment.load scenarios.gcc_env scenarios.no_conflicts).1
    (Environment.load scenarios.gcc_env scenarios.no_conflicts).2 = true.
Proof.
  apply load_establishes_is_loaded.
  - apply NoDup_singleton.
  - intros k v Hin. apply list_elem_of_singleton in Hin as [= -> ->].
    reflexivity.
  - intros c Hin. vm_compute in Hin. by apply elem_of_nil in Hin.
Defined.

(** *** Equality *)

Lemma eq_spec (a b : Environment.t) :
  odict_wf (Environment._variables a) →
  odict_wf (Environment._variables b) →
  Environment.__eq__ a b = true
  ↔ Environment._name a = Environment._name b
    ∧ (list_to_set (Environment._modules a) : gset string)
      = list_to_set (Environment._modules b)
    ∧ Environment._variables a = Environment._variables b.
Proof.
  intros Hwfa Hwfb. unfold Environment.__eq__.
  rewrite !andb_true_iff, !bool_decide_eq_true, odict_eq_spec by done.
  tauto.
Qed.

(** X14.  On environments whose variables are ordered dictionaries, [==] is
    reflexive, symmetric and transitive. *)
Theorem eq_is_equivalence (a b c : Environment.t) :
  odict_wf (Environment._variables a) →
  odict_wf (Environment._variables b) →
  odict_wf (Environment._variables c) →
  Environment.__eq__ a a = true
  ∧ Environment.__eq__ a b = Environment.__eq__ b a
  ∧ (Environment.__eq__ a b = true → Environment.__eq__ b c = true →
     Environment.__eq__ a c = true).
Proof.
  intros Ha Hb Hc. split; [|split].
  - by apply eq_spec.
  - destruct (Environment.__eq__ a b) eqn:Hab,
      (Environment.__eq__ b a) eqn:Hba; try done.
    + apply eq_spec in Hab as (? & ? & ?); [|done..].
      apply not_true_iff_false in Hba. exfalso. apply Hba.
      by apply eq_spec.
    + apply eq_spec in Hba as (? & ? & ?); [|done..].
      apply not_true_iff_false in Hab. exfalso. apply Hab.
      by apply eq_spec.
  - intros (? & ? & ?)%eq_spec (? & ? & ?)%eq_spec; [|done..].
    apply eq_spec; [done..|]. split; [congruence|]. split; congruence.
Qed.

Section any_backend.
Context {MS : Type} `{!modules.ModulesSystem MS}.
Import Environment.
Implicit Types (self : Environment.t) (w : Ambient MS).

(** X15.  [==] does not look at the activation state: an environment equals
    itself after [load] and after [unload], in any ambient state. *)
Theorem eq_ignores_activation self w :
  odict_wf (_variables self) →
  __eq__ self (load self w).1 = true
  ∧ __eq__ self (unload self w).1 = true
  ∧ __eq__ self (load_then_unload self w).1 = true.
Proof.
  intros Hwf.
  destruct (load_declaration self w) as (Hn & Hm & Hv & _).
  destruct (unload_declaration self w) as (Hn' & Hm' & Hv' & _).
  split; [|split].
  - apply eq_spec; [done|by rewrite Hv|]. by rewrite Hn, Hm, Hv.
  - apply eq_spec; [done|by rewrite Hv'|]. by rewrite Hn', Hm', Hv'.
  - rewrite load_then_unload_eq.
    destruct (unload_declaration (load self w).1 (load self w).2)
      as (Hn2 & Hm2 & Hv2 & _).
    apply eq_spec; [done|by rewrite Hv2, Hv|].
    by rewrite Hn2, Hm2, Hv2, Hn, Hm, Hv.
Qed.

(** *** Swapping environments *)

Lemma unload_restores_saved self w k :
  _loaded self = true →
  k ∈ (_variables self).*1 →
  environ (unload self w).2 !! k = _saved_variables self !! k.
Proof.
  intros Hl Hk. rewrite unload_eq by done. cbn [snd].
  match goal with
  | |- context [for_in (_conflicted self) _ ?w0] =>
      destruct (reload_conflicted_eq (_conflicted self) w0) as [-> _]
  end.
  match goal with
  | |- context [for_in (reverse (_modules self)) _ ?w0] =>
      destruct (unload_modules_eq (_preloaded self)
                  (reverse (_modules self)) w0) as [-> _]
  end.
  rewrite unload_variables_lookup. by rewrite decide_True.
Qed.

Lemma load_saves_ambient self w k old :
  odict_wf (_variables self) →
  k ∈ (_variables self).*1 →
  environ w !! k = Some old →
  _saved_variables (load self w).1 !! k = Some old.
Proof.
  intros Hwf Hk Hold.
  apply list_elem_of_fmap in Hk as ([k' v] & -> & Hin).
  apply list_elem_of_split in Hin as (pre & post & Hsplit).
  cbn [fst] in *. rewrite load_eq. cbn zeta.
  cbn [fst set_loaded _saved_variables].
  destruct (load_variables_at (_variables self) pre k' v post
              (for_in (_modules self) load_module_step (self, w))
              Hsplit Hwf) as [_ ->].
  destruct (load_modules_frame (_modules self) (self, w)) as (-> & _).
  cbn [fst snd]. by rewrite Hold.
Qed.
End any_backend.

Section swap.
Context {MS : Type} `{!modules.ModulesSystem MS}.
Import Environment.
Implicit Types (self src dst : Environment.t) (w : Ambient MS).

Lemma swap_environments_eq src dst w :
  swap_environments src dst w
  = ((unload src w).1, (load dst (unload src w).2).1,
     (load dst (unload src w).2).2).
Proof.
  unfold swap_environments. destruct (unload src w) as [src' w'].
  cbn [fst snd]. by destruct (load dst w').
Qed.

(** X16.  Let two environments declare [X], set to [old] in the ambient state.
    Loading the first, swapping to the second and unloading the second
    leaves [X] at [old]: the swap restores [X] before the second
    environment saves it. *)
Theorem swap_then_unload_restores src dst w X old :
  odict_wf (_variables src) →
  odict_wf (_variables dst) →
  X ∈ (_variables src).*1 →
  X ∈ (_variables dst).*1 →
  environ w !! X = Some old →
  let swapped :=
    swap_environments (load src w).1 dst (load src w).2 in
  environ (unload swapped.1.2 swapped.2).2 !! X = Some old.
Proof.
  intros Hws Hwd Hxs Hxd Hold. cbn zeta.
  rewrite swap_environments_eq. cbn [fst snd].
  destruct (load_declaration src w) as (_ & _ & Hvs & Hls).
  set (src1 := (load src w).1) in *. set (w1 := (load src w).2).
  assert (H1 : environ (unload src1 w1).2 !! X = Some old).
  { rewrite unload_restores_saved; [|done|by rewrite Hvs].
    by apply load_saves_ambient. }
  set (w2 := (unload src1 w1).2) in *.
  destruct (load_declaration dst w2) as (_ & _ & Hvd & Hld).
  rewrite unload_restores_saved; [|done|by rewrite Hvd].
  by apply load_saves_ambient.
Qed.

(** *** Snapshots *)

(** X17.  Leaving a [save_environment] block puts back every variable as it was
    on entry, whatever happened to the process environment in between; the
    modules an environment loaded inside the block stay loaded. *)
Theorem save_environment_restores_variables (w0 w : Ambient MS) self :
  environ (save_environment.__exit__ (save_environment.__init__ w0) w).2
  = environ w0
  ∧ modules_system
      (save_environment.__exit__ (save_environment.__init__ w0)
         (load self w0).2).2
    = modules_system (load self w0).2.
Proof.
  split; [|done]. simpl. apply (right_id ∅ (∪)).
Qed.
End swap.

Lemma swap_then_unload_restores_witness :
  let swapped :=
    swap_environments (Environment.load scenarios.env_b scenarios.a_loaded).1
      scenarios.gcc_env (Environment.load scenarios.env_b scenarios.a_loaded).2
  in
  environ (Environment.unload swapped.1.2 swapped.2).2 !! "CC" = Some "cc".
Proof.
  apply (swap_then_unload_restores scenarios.env_b scenarios.gcc_env
           scenarios.a_loaded "CC" "cc").
  - unfold odict_wf. simpl. apply NoDup_cons. split; [|apply NoDup_singleton].
    intros Hin. apply list_elem_of_singleton in Hin. discriminate.
  - apply NoDup_singleton.
  - simpl. right. left.
  - simpl. left.
  - reflexivity.
Defined.

(** *** [details] *)

Lemma string_app_assoc (a b c : string) : (a +:+ b) +:+ c = a +:+ b +:+ c.
Proof.
  induction a as [|x a IH]; [done|].
  change (String x ((a +:+ b) +:+ c) = String x (a +:+ b +:+ c)).
  by f_equal.
Qed.

Lemma string_app_nil_r (a : string) : a +:+ "" = a.
Proof.
  induction a as [|x a IH]; [done|].
  change (String x (a +:+ "") = String x a). by f_equal.
Qed.

Lemma str_join_lines (x : string) (items : list string) :
  newline +:+ str_join newline (x :: items)
  = foldr String.append "" (map (String.append newline) (x :: items)).
Proof.
  revert x. induction items as [|y items IH]; intros x.
  - simpl. by rewrite string_app_nil_r.
  - change (str_join newline (x :: y :: items))
      with (x +:+ newline +:+ str_join newline (y :: items)).
    rewrite IH. cbn [map foldr]. by rewrite string_app_assoc.
Qed.

(** X18.  [details()] is the name and a colon, the line of the modules joined
    by [', '], and the line [variables:], followed by one line per
    declared variable in declared order; without variables the text ends
    right after [variables:]. *)
Theorem details_lines (self : Environment.t) :
  Environment.details self
  = Environment._name self +:+ ":" +:+ newline
    +:+ "    modules: " +:+ str_join ", " (Environment._modules self)
    +:+ newline +:+ "    variables:"
    +:+ foldr String.append ""
          (map (λ '(k, v), newline +:+ "        - " +:+ k +:+ "=" +:+ v)
             (Environment._variables self)).
Proof.
  unfold Environment.details.
  set (item := λ '(k, v), "        " +:+ ("- " +:+ k +:+ "=" +:+ v)).
  assert (Hmap : map (λ '(k, v), newline +:+ "        - " +:+ k +:+ "=" +:+ v)
                   (Environment._variables self)
                 = map (String.append newline)
                     (map item (Environment._variables self))).
  { rewrite map_map. apply map_ext. by intros [k v]. }
  rewrite Hmap.
  destruct (map item (Environment._variables self)) as [|x items] eqn:Hitems.
  - simpl. by rewrite !string_app_assoc.
  - assert (Hx : str_join newline (x :: items) ≠ "").
    { destruct (Environment._variables self) as [|[k v] vars]; [done|].
      injection Hitems as <- _. by destruct items. }
    rewrite decide_False by done. rewrite <- str_join_lines.
    cbn [str_join]. by rewrite !string_app_assoc.
Qed.

(** *** Assignments to an instance *)

(** X19.  The four public attributes of an environment are read-only: assigning
    to one raises [AttributeError] whatever the value.  The private
    attributes written by [__init__] accept any value unchecked. *)
Theorem public_attributes_read_only (attr : string) (value : PyValue) :
  (attr ∈ ["name"; "modules"; "variables"; "is_loaded"] →
   ∃ msg,
     setattr_check Environment.class_dict attr value
     = inl (AttributeError msg))
  ∧ (attr ∈ ["_name"; "_modules"; "_variables"; "_loaded";
             "_saved_variables"; "_conflicted"; "_preloaded";
             "_module_ops"] →
     setattr_check Environment.class_dict attr value = inr ()).
Proof.
  split; intros Hin; unfold setattr_check.
  - repeat (apply elem_of_cons in Hin as [->|Hin];
            [eexists; by vm_compute|]).
    by apply elem_of_nil in Hin.
  - repeat (apply elem_of_cons in Hin as [->|Hin]; [by vm_compute|]).
    by apply elem_of_nil in Hin.
Qed.

(** ** Loading twice *)

Section reentrant.
Context {MS : Type} `{!modules.ModulesSystem MS}.
Import Environment.
Implicit Types (self : Environment.t) (w : Ambient MS).

Lemma load_sets_literal self w X new :
  odict_wf (_variables self) →
  (X, new) ∈ _variables self →
  forallb (λ c, negb (nat_of_ascii c =? 36)%nat) (list_ascii_of_string new)
  = true →
  environ (load self w).2 !! X = Some new.
Proof.
  intros Hwf Hin Hlit.
  apply list_elem_of_split in Hin as (pre & post & Hsplit).
  rewrite load_eq. cbn zeta. cbn [snd].
  destruct (load_variables_at (_variables self) pre X new post
              (for_in (_modules self) load_module_step (self, w))
              Hsplit Hwf) as [-> _].
  by rewrite expandvars_no_dollar.
Qed.

(** X20.  Loading an environment that is loaded already overwrites what the
    first [load] saved: for a declared variable [X] with a value free of
    [$], [load], [load], [unload] leaves [X] at the declared value, whatever
    [X] was before. *)
Theorem second_load_forgets_saved_value self w X new :
  odict_wf (_variables self) →
  (X, new) ∈ _variables self →
  forallb (λ c, negb (nat_of_ascii c =? 36)%nat) (list_ascii_of_string new)
  = true →
  let once := load self w in
  let twice := load once.1 once.2 in
  environ (unload twice.1 twice.2).2 !! X = Some new.
Proof.
  intros Hwf Hin Hlit. cbn zeta.
  destruct (load_declaration self w) as (_ & _ & Hv1 & _).
  set (once := load self w) in *.
  destruct (load_declaration once.1 once.2) as (_ & _ & Hv2 & Hl2).
  assert (Hkey : X ∈ (_variables self).*1).
  { apply list_elem_of_fmap. by exists (X, new). }
  rewrite unload_restores_saved; [|done|by rewrite Hv2, Hv1].
  apply load_saves_ambient; [by rewrite Hv1|by rewrite Hv1|].
  by apply load_sets_literal.
Qed.
End reentrant.

Lemma second_load_forgets_saved_value_witness :
  let once := Environment.load scenarios.env_x scenarios.x_old in
  let twice := Environment.load once.1 once.2 in
  environ (Environment.unload twice.1 twice.2).2 !! "X" = Some "new".
Proof.
  apply (second_load_forgets_saved_value scenarios.env_x scenarios.x_old
           "X" "new").
  - apply NoDup_singleton.
  - left.
  - reflexivity.
Defined.

Lemma eq_is_equivalence_witness :
  Environment.__eq__ scenarios.env_foo_bar scenarios.env_foo_bar = true
  ∧ Environment.__eq__ scenarios.env_foo_bar scenarios.env_bar_foo
    = Environment.__eq__ scenarios.env_bar_foo scenarios.env_foo_bar
  ∧ (Environment.__eq__ scenarios.env_foo_bar scenarios.env_bar_foo = true →
     Environment.__eq__ scenarios.env_bar_foo scenarios.env_foo_bar = true →
     Environment.__eq__ scenarios.env_foo_bar scenarios.env_foo_bar = true).
Proof.
  assert (Hwf : odict_wf [("A", "1"); ("B", "2")]).
  { unfold odict_wf. simpl. apply NoDup_cons. split; [|apply NoDup_singleton].
    intros Hin. apply list_elem_of_singleton in Hin. discriminate. }
  exact (eq_is_equivalence scenarios.env_foo_bar scenarios.env_bar_foo
           scenarios.env_foo_bar Hwf Hwf Hwf).
Defined.

Lemma eq_ignores_activation_witness :
  Environment.__eq__ scenarios.env_b
    (Environment.load scenarios.env_b scenarios.a_loaded).1 = true
  ∧ Environment.__eq__ scenarios.env_b
      (Environment.unload scenarios.env_b scenarios.a_loaded).1 = true
  ∧ Environment.__eq__ scenarios.env_b
      (Environment.load_then_unload scenarios.env_b scenarios.a_loaded).1
    = true.
Proof.
  apply eq_ignores_activation.
  unfold odict_wf. simpl. apply NoDup_cons. split; [|apply NoDup_singleton].
  intros Hin. apply list_elem_of_singleton in Hin. discriminate.
Defined.

(** ** The STREAM test *)

Section stream.
Import StreamTest.

(** X21.  [setup] succeeds exactly when the partition has a count of cpus
    and the environment has a reference.  A failure leaves the variables of
    the test as they were; no outcome touches the two tables. *)
Theorem setup_succeeds_iff (self : StreamTest.t) (fullname : string)
    (environ : Environment.t) :
  ((setup self fullname environ).1 = inr ()
   ↔ is_Some (stream_cpus_per_task self !! fullname)
     ∧ is_Some (stream_bw_reference self !! Environment.name environ))
  ∧ ((setup self fullname environ).1 ≠ inr () →
     variables (setup self fullname environ).2 = variables self)
  ∧ stream_cpus_per_task (setup self fullname environ).2
    = stream_cpus_per_task self
  ∧ stream_bw_reference (setup self fullname environ).2
    = stream_bw_reference self.
Proof.
  unfold setup.
  destruct (stream_cpus_per_task self !! fullname) as [n|] eqn:Hn;
    cbn [set_num_cpus_per_task stream_bw_reference].
  - destruct (stream_bw_reference self !! Environment.name environ)
      as [r|] eqn:Hr; cbn [fst snd].
    + repeat split; try done; eauto.
    + repeat split; try done.
      * intros [_ [? ?]]. done.
  - repeat split; try done. intros [[? ?] _]. done.
Qed.

(** X22.  After a successful [setup], [OMP_NUM_THREADS] is the decimal text
    of the count of cpus of the partition, the count is stored in
    [num_cpus_per_task], every other variable is as before, and
    [reference] is the entry of the environment. *)
Theorem setup_sets_threads (self : StreamTest.t) (fullname : string)
    (environ : Environment.t) (n : Z) :
  (setup self fullname environ).1 = inr () →
  stream_cpus_per_task self !! fullname = Some n →
  let self' := (setup self fullname environ).2 in
  num_cpus_per_task self' = Some n
  ∧ variables self' !! "OMP_NUM_THREADS" = Some (pretty n)
  ∧ (∀ k, k ≠ "OMP_NUM_THREADS" →
          variables self' !! k = variables self !! k)
  ∧ reference self'
    = stream_bw_reference self !! Environment.name environ.
Proof.
  unfold setup. intros Hok Hn. rewrite Hn in *.
  cbn [set_num_cpus_per_task stream_bw_reference] in *.
  destruct (stream_bw_reference self !! Environment.name environ)
    as [r|] eqn:Hr; [|done].
  cbn zeta. cbn [snd set_variables set_reference variables
                 num_cpus_per_task reference str_of_int].
  repeat split.
  - by rewrite lookup_insert_eq.
  - intros k Hk. by rewrite lookup_insert_ne.
Qed.

(** X23.  Running [setup] again with the same arguments changes nothing
    more, whether it succeeds or fails. *)
Theorem setup_idempotent (self : StreamTest.t) (fullname : string)
    (environ : Environment.t) :
  setup (setup self fullname environ).2 fullname environ
  = setup self fullname environ.
Proof.
  unfold setup.
  destruct (stream_cpus_per_task self !! fullname) as [n|] eqn:Hn;
    cbn [set_num_cpus_per_task stream_bw_reference stream_cpus_per_task].
  - destruct (stream_bw_reference self !! Environment.name environ)
      as [r|] eqn:Hr;
      cbn [snd set_num_cpus_per_task set_variables set_reference
           stream_bw_reference stream_cpus_per_task variables
           num_cpus_per_task reference str_of_int];
      rewrite Hn, ?Hr;
      cbn [snd set_num_cpus_per_task set_variables set_reference
           stream_bw_reference stream_cpus_per_task variables
           num_cpus_per_task reference str_of_int].
    + by rewrite insert_insert_eq.
    + done.
  - cbn [snd]. by rewrite Hn.
Qed.

(** X24.  For the test as [__init__] builds it: with an environment among
    [valid_prog_environs], [setup] succeeds exactly on the six partitions
    of its table of cpus, and then the three OpenMP variables are set. *)
Theorem setup_of_constructed_test (base : StreamTest.t) (fullname : string)
    (environ : Environment.t) :
  Environment.name environ ∈ valid_prog_environs (__init__ base) →
  ((setup (__init__ base) fullname environ).1 = inr ()
   ↔ fullname ∈ ["delcatty:delcatty"; "phanpy:phanpy"; "golett:golett";
                 "swalot:swalot"; "victini:victini"; "skitty:skitty"])
  ∧ ((setup (__init__ base) fullname environ).1 = inr () →
     let vars := variables (setup (__init__ base) fullname environ).2 in
     vars !! "OMP_PLACES" = Some "threads"
     ∧ vars !! "OMP_PROC_BIND" = Some "spread"
     ∧ is_Some (vars !! "OMP_NUM_THREADS")).
Proof.
  intros Henv. cbn [__init__ valid_prog_environs] in Henv.
  apply list_elem_of_singleton in Henv.
  assert (Href : ∃ r, stream_bw_reference (__init__ base)
                        !! Environment.name environ = Some r).
  { rewrite Henv. vm_compute. eauto. }
  destruct Href as [r Hr].
  assert (Hdom : is_Some (stream_cpus_per_task (__init__ base) !! fullname)
                 ↔ fullname ∈ ["delcatty:delcatty"; "phanpy:phanpy";
                               "golett:golett"; "swalot:swalot";
                               "victini:victini"; "skitty:skitty"]).
  { cbn [__init__ stream_cpus_per_task].
    rewrite !elem_of_cons, elem_of_nil.
    rewrite !lookup_insert_is_Some, lookup_empty, is_Some_alt. naive_solver. }
  unfold setup.
  destruct (stream_cpus_per_task (__init__ base) !! fullname) as [n|] eqn:Hn;
    cbn [set_num_cpus_per_task stream_bw_reference] in *.
  - rewrite Hr. cbn zeta.
    cbn [fst snd set_variables set_reference variables].
    split.
    + split; [intros _; apply Hdom; eauto|done].
    + intros _. rewrite !lookup_insert_ne by done.
      rewrite lookup_insert_eq.
      repeat split; [by vm_compute..|eauto].
  - cbn [fst]. split; [|done].
    split; [done|]. intros Hin. apply Hdom in Hin as [? ?]. done.
Qed.
End stream.

Lemma setup_sets_threads_witness :
  let self' :=
    (StreamTest.setup (StreamTest.__init__ scenarios.stream_base)
       "skitty:skitty" scenarios.prgenv_intel).2 in
  StreamTest.num_cpus_per_task self' = Some 36%Z
  ∧ StreamTest.variables self' !! "OMP_NUM_THREADS" = Some (pretty 36%Z)
  ∧ (∀ k, k ≠ "OMP_NUM_THREADS" →
          StreamTest.variables self' !! k
          = StreamTest.variables (StreamTest.__init__ scenarios.stream_base)
              !! k)
  ∧ StreamTest.reference self'
    = StreamTest.stream_bw_reference
        (StreamTest.__init__ scenarios.stream_base)
        !! Environment.name scenarios.prgenv_intel.
Proof.
  apply (setup_sets_threads (StreamTest.__init__ scenarios.stream_base)
           "skitty:skitty" scenarios.prgenv_intel 36).
  - reflexivity.
  - reflexivity.
Defined.

Lemma setup_of_constructed_test_witness :
  ((StreamTest.setup (StreamTest.__init__ scenarios.stream_base)
      "victini:victini" scenarios.prgenv_intel).1 = inr ()
   ↔ "victini:victini"
     ∈ ["delcatty:delcatty"; "phanpy:phanpy"; "golett:golett";
        "swalot:swalot"; "victini:victini"; "skitty:skitty"])
  ∧ ((StreamTest.setup (StreamTest.__init__ scenarios.stream_base)
        "victini:victini" scenarios.prgenv_intel).1 = inr () →
     let vars :=
       StreamTest.variables
         (StreamTest.setup (StreamTest.__init__ scenarios.stream_base)
            "victini:victini" scenarios.prgenv_intel).2 in
     vars !! "OMP_PLACES" = Some "threads"
     ∧ vars !! "OMP_PROC_BIND" = Some "spread"
     ∧ is_Some (vars !! "OMP_NUM_THREADS")).
Proof.
  apply (setup_of_constructed_test scenarios.stream_base "victini:victini"
           scenarios.prgenv_intel).
  simpl. left.
Defined.
